(** * yzx: the script-loading front end of [yzx.mjs]

    A shallow embedding of [src/yzx.mjs]: the literate extractor
    [transformMarkdown], and the format resolver [importPath] with its
    helpers [writeAndImport] and [scriptFromStdin], run against a model of
    the Node collaborators they call ([path], [fs/promises], the module
    loader, the TypeScript compiler). *)

From stdpp Require Import base decidable option list numbers gmap strings.

Open Scope N_scope.
Open Scope list_scope.

(** ** JavaScript strings

    A JavaScript string is a sequence of UTF-16 code units; [split],
    [===], [+] and the regular expressions of the source all work on code
    units, so a string is a list of them. *)

Abbreviation jsstring := (list N).

(** A literal of the source, written as a Rocq string of ASCII characters. *)
Definition lit (s : string) : jsstring :=
  map Ascii.N_of_ascii (String.list_ascii_of_string s).

Definition LF : N := 10.
Definition CR : N := 13.
Definition TAB : N := 9.
Definition SPACE : N := 32.
Definition DOT : N := 46.
Definition SLASH : N := 47.

(** [a === b] on strings. *)
Definition str_eqb (a b : jsstring) : bool := bool_decide (a = b).

(** [s.startsWith(p)], the reading of a regular expression [/^p/]. *)
Fixpoint starts_with (p s : jsstring) : bool :=
  match p, s with
  | [], _ => true
  | _ :: _, [] => false
  | a :: p', b :: s' => N.eqb a b && starts_with p' s'
  end.

(** [s.split(sep)] for a one-unit separator: never empty, the empty string
    splits into one empty piece. *)
Fixpoint split (sep : N) (s : jsstring) : list jsstring :=
  match s with
  | [] => [[]]
  | c :: s' =>
      if N.eqb c sep then [] :: split sep s'
      else match split sep s' with
           | [] => [[c]]
           | l :: ls => (c :: l) :: ls
           end
  end.

(** [pieces.join(sep)]. *)
Fixpoint join (sep : jsstring) (pieces : list jsstring) : jsstring :=
  match pieces with
  | [] => []
  | [l] => l
  | l :: ls => l ++ sep ++ join sep ls
  end.

(** ** The regular expressions of [transformMarkdown] *)

(** The characters [.] does not match (no [s] flag): LF, CR, U+2028, U+2029. *)
Definition line_terminator (c : N) : bool :=
  N.eqb c LF || N.eqb c CR || N.eqb c 8232 || N.eqb c 8233.

(** [/^( {4}|\t)/] *)
Definition re_indent4 (line : jsstring) : bool :=
  starts_with (lit "    ") line || starts_with [TAB] line.

(** [/^```(js|javascript)$/]: without the [m] flag [$] is the end of the
    input, so the line is one of the two markers exactly. *)
Definition re_fence_js (line : jsstring) : bool :=
  str_eqb line (lit "```js") || str_eqb line (lit "```javascript").

(** [/^```(sh|bash)$/] *)
Definition re_fence_sh (line : jsstring) : bool :=
  str_eqb line (lit "```sh") || str_eqb line (lit "```bash").

(** [/^```.*$/]: three backticks, then no line terminator up to the end. *)
Definition re_fence_any (line : jsstring) : bool :=
  starts_with (lit "```") line
  && forallb (fun c => negb (line_terminator c)) (drop 3 line).

(** [/^( +|\t)/] *)
Definition re_indent (line : jsstring) : bool :=
  starts_with [SPACE] line || starts_with [TAB] line.

(** [/^```$/] *)
Definition re_fence_close (line : jsstring) : bool :=
  str_eqb line (lit "```").

(** ** transformMarkdown *)

(** The values of the variable [state]. *)
Inductive state := root | tab | js | bash | other.

#[global] Instance state_eq_dec : EqDecision state.
Proof. solve_decision. Defined.

(** The three variables the loop mutates. *)
Record cursor := Cursor {
  cur_state : state;
  prevLineIsEmpty : bool;
  output : list jsstring
}.

(** [output.push(x)], with an optional change of [state]. *)
Definition push (x : jsstring) (s : state) (c : cursor) : cursor :=
  Cursor s (prevLineIsEmpty c) (output c ++ [x]).

Definition comment (line : jsstring) : jsstring := lit "// " ++ line.

(** One iteration of the [for] loop: the [switch] on [state]. *)
Definition step (c : cursor) (line : jsstring) : cursor :=
  match cur_state c with
  | root =>
      if re_indent4 line && prevLineIsEmpty c then push line tab c
      else if re_fence_js line then push [] js c
      else if re_fence_sh line then push (lit "await $`") bash c
      else if re_fence_any line then push [] other c
      else Cursor root (str_eqb line []) (output c ++ [comment line])
  | tab =>
      if re_indent line then push line tab c
      else if str_eqb line [] then push [] tab c
      else push (comment line) root c
  | js =>
      if re_fence_close line then push [] root c
      else push line js c
  | bash =>
      if re_fence_close line then push (lit "`") root c
      else push line bash c
  | other =>
      if re_fence_close line then push [] root c
      else push (comment line) other c
  end.

Definition init : cursor := Cursor root true [].

(** The cursor after the loop has consumed [lines]. *)
Definition run (lines : list jsstring) : cursor := fold_left step lines init.

Definition transformMarkdown (source : jsstring) : jsstring :=
  join [LF] (output (run (split LF source))).

(** The state in which the extractor finishes a document. *)
Definition final_state (source : jsstring) : state :=
  cur_state (run (split LF source)).

(** ** Node's [path] module (POSIX flavour)

    [extname], [basename], [dirname], [parse], [join] and [resolve] are
    Node's, not this repository's; they are modelled from their documented
    behaviour on the segments of a path. *)

Fixpoint drop_while (f : N -> bool) (s : jsstring) : jsstring :=
  match s with
  | [] => []
  | c :: s' => if f c then drop_while f s' else s
  end.

Definition is_slash (c : N) : bool := N.eqb c SLASH.

(** [path.basename(p)]: the last non-empty segment, trailing slashes
    ignored; empty for the empty path and for a path made of slashes. *)
Definition basename (p : jsstring) : jsstring :=
  default [] (last (filter (fun s => s <> []) (split SLASH p))).

(** The suffix of [b] that starts at its last dot, if it has a dot. *)
Fixpoint last_dot_suffix (b : jsstring) : option jsstring :=
  match b with
  | [] => None
  | c :: b' =>
      match last_dot_suffix b' with
      | Some s => Some s
      | None => if N.eqb c DOT then Some b else None
      end
  end.

(** The extension of a single segment: from its last dot to its end; empty
    when the segment has no dot, when its last dot is its first character,
    or when the segment is [..]. Letter case is kept. *)
Definition ext_of (b : jsstring) : jsstring :=
  match last_dot_suffix b with
  | None => []
  | Some s =>
      if bool_decide (length s = length b) then []
      else if str_eqb b (lit "..") then []
      else s
  end.

(** [path.extname(p)] *)
Definition extname (p : jsstring) : jsstring := ext_of (basename p).

(** What precedes the slash in front of the last segment of [q], when
    there is such a slash. *)
Definition before_last_segment (q : jsstring) : option jsstring :=
  match drop_while (fun c => negb (is_slash c))
          (drop_while is_slash (reverse q)) with
  | [] => None
  | _ :: e => Some (reverse e)
  end.

(** [path.dirname(p)]: the scan never looks at the first character. *)
Definition dirname (p : jsstring) : jsstring :=
  match p with
  | [] => lit "."
  | c :: q =>
      match before_last_segment q with
      | None => if is_slash c then lit "/" else lit "."
      | Some pre =>
          if is_slash c && bool_decide (pre = []) then lit "//" else c :: pre
      end
  end.

(** The fields of [path.parse(p)] the source uses. [name] is the last
    segment without its extension; [parse] is only called on a path whose
    [extname] is [".ts"]. *)
Record parsed := Parsed { dir : jsstring; name : jsstring }.

Definition parse (p : jsstring) : parsed :=
  let b := basename p in
  Parsed
    match p with
    | [] => []
    | c :: q =>
        if is_slash c then
          match before_last_segment q with
          | None => lit "/"
          | Some pre => c :: pre
          end
        else default [] (before_last_segment p)
    end
    (take (length b - length (ext_of b)) b).

(** One segment of [normalizeString]: the stack holds the segments kept so
    far, the last one first. *)
Definition norm_step (allowAboveRoot : bool)
    (stack : list jsstring) (seg : jsstring) : list jsstring :=
  if str_eqb seg [] || str_eqb seg (lit ".") then stack
  else if str_eqb seg (lit "..") then
    match stack with
    | top :: rest =>
        if str_eqb top (lit "..")
        then (if allowAboveRoot then seg :: stack else stack)
        else rest
    | [] => if allowAboveRoot then [seg] else []
    end
  else seg :: stack.

Definition normalizeString (p : jsstring) (allowAboveRoot : bool) : jsstring :=
  join [SLASH]
    (reverse (fold_left (norm_step allowAboveRoot) (split SLASH p) [])).

Definition isAbsolute (p : jsstring) : bool :=
  match p with c :: _ => is_slash c | [] => false end.

Definition trailingSeparator (p : jsstring) : bool :=
  match last p with Some c => is_slash c | None => false end.

(** [path.normalize(p)] *)
Definition normalize (p : jsstring) : jsstring :=
  match p with
  | [] => lit "."
  | _ =>
      let s := normalizeString p (negb (isAbsolute p)) in
      match s with
      | [] =>
          if isAbsolute p then lit "/"
          else if trailingSeparator p then lit "./" else lit "."
      | _ =>
          let s' := if trailingSeparator p then s ++ [SLASH] else s in
          if isAbsolute p then SLASH :: s' else s'
      end
  end.

(** [path.join(a, b)]: empty arguments are skipped. *)
Definition path_join (a b : jsstring) : jsstring :=
  match a, b with
  | [], _ => normalize b
  | _, [] => normalize a
  | _, _ => normalize (a ++ SLASH :: b)
  end.

(** [path.resolve(p)] in a process whose working directory is [cwd]. *)
Definition resolve (cwd p : jsstring) : jsstring :=
  let rel := match p with [] => [] | _ => p ++ [SLASH] end in
  let full :=
    if isAbsolute rel then rel
    else match cwd with [] => rel | _ => cwd ++ SLASH :: rel end in
  let s := normalizeString full (negb (isAbsolute full)) in
  if isAbsolute full then SLASH :: s
  else match s with [] => lit "." | _ => s end.

(** ** The process and its collaborators *)

(** A failure an [await] can raise: a missing file ([fs]), any other
    failure of [fs] with its code ([EISDIR], [ENOTDIR], [EACCES], ...), or
    whatever the module loader rejects with. *)
Inductive error :=
  | ENOENT (path : jsstring)
  | LoadError (message : jsstring)
  | FsError (code path : jsstring).

(** What the TypeScript compiler did: it succeeded and emitted [code], or
    it failed, after emitting something or not. *)
Inductive tsc_result :=
  | Compiled (code : jsstring)
  | Failed (emitted : option jsstring).

(** The effects of a run, in the order they take place. *)
Inductive event :=
  | EvWrite (path : jsstring)
  | EvRm (path : jsstring)
  | EvRename (src dst : jsstring)
  | EvCompile (input out : jsstring)
  | EvMkdtemp (path : jsstring)
  | EvLoad (path filename dirname : jsstring).

#[global] Instance event_eq_dec : EqDecision event.
Proof. solve_decision. Defined.

(** The state the program acts on: the regular files (a file is its path
    string; its content is the text [toString()] gives), the directories
    made by [mkdtemp], the two properties assigned on [global], and the
    log of effects. *)
Record world := World {
  files : gmap jsstring jsstring;
  dirs : list jsstring;
  globals : option (jsstring * jsstring);
  trace : list event
}.

(** What the program cannot decide: the process environment, the bytes on
    standard input, the random names, what the loaded module does
    ([loader] gives the rejection of [import()], if any, from the path,
    the files and the two globals), what the TypeScript compiler does,
    the failures of the file system the map of files does not show
    ([read_error]: what [readFile] throws at a path that holds no regular
    file; [write_error]: whether [writeFile] fails), and the timing of a
    rejection ([at_once]: whether it arrives while the caller still waits
    for its deletion, before anybody awaits the promise). *)
Record env := Env {
  cwd : jsstring;
  tmpdir : jsstring;
  random36 : jsstring;
  mkdtemp_suffix : jsstring;
  stdin : option (list jsstring);
  loader : jsstring -> gmap jsstring jsstring -> jsstring -> jsstring -> option error;
  tsc : jsstring -> gmap jsstring jsstring -> tsc_result;
  read_error : jsstring -> error;
  write_error : jsstring -> gmap jsstring jsstring -> option error;
  at_once : error -> bool
}.

(** How an [async] function ends: it returns, it throws, the process is
    ended by [process.exit], the process is ended by a rejection that
    nobody handles, or the model ran out of fuel. *)
Inductive outcome (A : Type) :=
  | Value (a : A)
  | Throw (e : error)
  | Exit (code : N)
  | Unhandled (e : error)
  | OutOfFuel.

Arguments Value {A} a.
Arguments Throw {A} e.
Arguments Exit {A} code.
Arguments Unhandled {A} e.
Arguments OutOfFuel {A}.

Definition M (A : Type) : Type := world -> world * outcome A.

Definition ret {A} (a : A) : M A := fun w => (w, Value a).

Definition bind {A B} (m : M A) (k : A -> M B) : M B :=
  fun w =>
    match m w with
    | (w', Value a) => k a w'
    | (w', Throw e) => (w', Throw e)
    | (w', Exit c) => (w', Exit c)
    | (w', Unhandled e) => (w', Unhandled e)
    | (w', OutOfFuel) => (w', OutOfFuel)
    end.

Notation "x <- m ;; k" := (bind m (fun x => k))
  (at level 100, m at next level, right associativity).
Notation "m ;;; k" := (bind m (fun _ => k))
  (at level 100, right associativity).

(** ** Calls that are not awaited on the spot

    [let wait = f(...)] runs the [async] function [f] up to its first
    [await] and hands back a promise; the caller goes on, here with
    [await fs.rm(...)], and only then awaits the promise. The operations
    that are pending are served in the order they were issued: the one
    the callee stopped at first, then the caller's deletion; what remains
    of the callee runs while the caller awaits it. A call is therefore a
    computation in two parts: what happens up to the end of its first
    awaited operation, and the rest, which is the promise.

    No handler is attached to the promise until the caller awaits it. A
    rejection of the first operation that arrives before that
    ([at_once]) is handled by nobody: Node ends the process there and
    then, and the caller's pending deletion is not served. A rejection
    that comes later is thrown by [await wait]. [process.exit] ends
    everything at once. *)
Definition start {A} (e : env) (call : M (M A)) : M (M A) :=
  fun w =>
    match call w with
    | (w', Value rest) => (w', Value rest)
    | (w', Throw err) =>
        if at_once e err then (w', Unhandled err)
        else (w', Value (fun w'' => (w'', Throw err)))
    | (w', Exit c) => (w', Exit c)
    | (w', Unhandled err) => (w', Unhandled err)
    | (w', OutOfFuel) => (w', OutOfFuel)
    end.

(** [await wait] *)
Definition await {A} (wait : M A) : M A := wait.

Definition log (e : event) (w : world) : world :=
  World (files w) (dirs w) (globals w) (trace w ++ [e]).

Definition set_files (f : gmap jsstring jsstring) (w : world) : world :=
  World f (dirs w) (globals w) (trace w).

(** [fs.readFile(p)]: at a path that holds no regular file it throws
    what the file system answers there ([ENOENT] when nothing is there,
    [EISDIR] for a directory, [ENOTDIR] for [file/], ...). *)
Definition readFile (e : env) (p : jsstring) : M jsstring :=
  fun w =>
    match files w !! p with
    | Some data => (w, Value data)
    | None => (w, Throw (read_error e p))
    end.

(** [fs.writeFile(p, data)]: it may fail (a missing directory, a
    directory at [p], permissions), and then writes nothing. *)
Definition writeFile (e : env) (p data : jsstring) : M unit :=
  fun w =>
    match write_error e p (files w) with
    | Some err => (w, Throw err)
    | None =>
        (log (EvWrite p) (set_files (<[p := data]> (files w)) w), Value tt)
    end.

(** [fs.rm(p)] *)
Definition rm (p : jsstring) : M unit :=
  fun w =>
    match files w !! p with
    | Some _ => (log (EvRm p) (set_files (delete p (files w)) w), Value tt)
    | None => (w, Throw (ENOENT p))
    end.

(** [fs.rename(src, dst)] *)
Definition rename (src dst : jsstring) : M unit :=
  fun w =>
    match files w !! src with
    | Some data =>
        (log (EvRename src dst)
           (set_files (<[dst := data]> (delete src (files w))) w), Value tt)
    | None => (w, Throw (ENOENT src))
    end.

(** [fs.mkdtemp(prefix)] *)
Definition mkdtemp (e : env) (prefix : jsstring) : M unit :=
  fun w =>
    let d := prefix ++ mkdtemp_suffix e in
    (log (EvMkdtemp d) (World (files w) (dirs w ++ [d]) (globals w) (trace w)),
     Value tt).

(** [Object.assign(global, { __filename, __dirname })] *)
Definition assign_globals (filename dirname : jsstring) : M unit :=
  fun w => (World (files w) (dirs w) (Some (filename, dirname)) (trace w), Value tt).

(** [import(url.pathToFileURL(p))]: the loader is entered with the globals
    as they are at that moment. *)
Definition import (e : env) (p : jsstring) : M unit :=
  fun w =>
    let g := default ([], []) (globals w) in
    let w' := log (EvLoad p (fst g) (snd g)) w in
    match loader e p (files w) (fst g) (snd g) with
    | None => (w', Value tt)
    | Some err => (w', Throw err)
    end.

(** [compile(input)]: the compiler's output lands beside the input as
    [<name>.js]; when it fails, with or without having emitted that file,
    the source prints the error and calls [process.exit(1)], removing
    nothing. The spinner and [$.verbose] do not touch the state. *)
Definition compile (e : env) (input : jsstring) : M unit :=
  fun w =>
    let out := path_join (dir (parse input)) (name (parse input) ++ lit ".js") in
    let emit code :=
      log (EvCompile input out) (set_files (<[out := code]> (files w)) w) in
    match tsc e input (files w) with
    | Compiled code => (emit code, Value tt)
    | Failed (Some code) => (emit code, Exit 1)
    | Failed None => (w, Exit 1)
    end.

(** [writeAndImport(script, filepath, origin)], over the [importPath] it
    calls. *)
Definition writeAndImport_with (e : env)
    (importPath : jsstring -> jsstring -> M (M unit))
    (script filepath origin : jsstring) : M unit :=
  writeFile e filepath script ;;;
  wait <- start e (importPath filepath origin) ;;
  rm filepath ;;;
  await wait.

(** The call [importPath(filepath, origin)], in its two parts: up to the
    end of its first awaited operation ([fs.readFile], the compiler, or
    [import()] itself), and the rest. [fuel] bounds the depth of the
    recursion. *)
Fixpoint importPath_call (e : env) (fuel : nat) (filepath origin : jsstring)
    : M (M unit) :=
  match fuel with
  | O => fun w => (w, OutOfFuel)
  | S fuel' =>
      let ext := extname filepath in
      if str_eqb ext [] then
        data <- readFile e filepath ;;
        ret (writeAndImport_with e (importPath_call e fuel') data
               (path_join (dirname filepath) (basename filepath ++ lit ".mjs"))
               origin)
      else if str_eqb ext (lit ".md") then
        data <- readFile e filepath ;;
        ret (writeAndImport_with e (importPath_call e fuel')
               (transformMarkdown data)
               (path_join (dirname filepath) (basename filepath ++ lit ".mjs"))
               origin)
      else if str_eqb ext (lit ".ts") then
        let p := parse filepath in
        let outFile := path_join (dir p) (name p ++ lit ".mjs") in
        compile e filepath ;;;
        ret (rename (path_join (dir p) (name p ++ lit ".js")) outFile ;;;
             wait <- start e (importPath_call e fuel' outFile filepath) ;;
             rm outFile ;;;
             await wait)
      else
        let __filename := resolve (cwd e) origin in
        let __dirname := dirname __filename in
        assign_globals __filename __dirname ;;;
        import e filepath ;;;
        ret (ret tt)
  end.

(** [await importPath(filepath, origin)]: the call, awaited on the
    spot. *)
Definition importPath (e : env) (fuel : nat) (filepath origin : jsstring)
    : M unit :=
  rest <- importPath_call e fuel filepath origin ;;
  rest.

Definition writeAndImport (e : env) (fuel : nat) : jsstring -> jsstring -> jsstring -> M unit :=
  writeAndImport_with e (importPath_call e fuel).

(** [scriptFromStdin()] *)
Definition scriptFromStdin (e : env) (fuel : nat) : M bool :=
  match stdin e with
  | None => ret false
  | Some chunks =>
      let script := concat chunks in
      if bool_decide (0 < length script)%nat then
        let filepath := path_join (tmpdir e) (random36 e ++ lit ".mjs") in
        mkdtemp e filepath ;;;
        writeAndImport e fuel script filepath
          (path_join (cwd e) (lit "stdin.mjs")) ;;;
        ret true
      else ret false
  end.

(** ** Vocabulary of the properties *)

(** The fences of a document read off its lines alone: outside a fence, a
    fence marker line opens one; inside, a bare closing line closes it.
    The result tells whether a fence is still open at the end. *)
Fixpoint fence_open (inside : bool) (lines : list jsstring) : bool :=
  match lines with
  | [] => inside
  | l :: ls =>
      if inside then fence_open (negb (re_fence_close l)) ls
      else fence_open (re_fence_any l) ls
  end.

(** Every opening fence marker line has a matching bare closing line. *)
Definition well_formed (source : jsstring) : Prop :=
  fence_open false (split LF source) = false.

(** Whether the extractor, started from [c], consumes a fence marker line
    while it is in the indented-block state. *)
Fixpoint fence_in_tab (c : cursor) (lines : list jsstring) : bool :=
  match lines with
  | [] => false
  | l :: ls =>
      (bool_decide (cur_state c = tab) && re_fence_any l)
      || fence_in_tab (step c l) ls
  end.

Definition fenced (s : state) : bool :=
  match s with js | bash | other => true | root | tab => false end.

(** The events a step adds to the log. *)
Definition new_events (w w' : world) : list event :=
  drop (length (trace w)) (trace w').

(** The paths a run materialized, in order: what [writeFile] wrote and
    what [rename] produced. *)
Definition artifacts (evs : list event) : list jsstring :=
  omap (fun ev => match ev with
                  | EvWrite p => Some p
                  | EvRename _ p => Some p
                  | _ => None
                  end) evs.

(** How many times [p] was deleted. *)
Definition removals (evs : list event) (p : jsstring) : nat :=
  length (filter (fun ev => ev = EvRm p) evs).

(** The transforming steps of a resolution: each one materializes its
    result. *)
Definition transforming_steps (evs : list event) : nat :=
  length (artifacts evs).

(** The paths handed to the module loader, with the globals it saw. *)
Definition loads (evs : list event) : list (jsstring * jsstring * jsstring) :=
  omap (fun ev => match ev with
                  | EvLoad p f d => Some (p, f, d)
                  | _ => None
                  end) evs.

(** A regular file has a name: no file sits at the empty path or at a path
    made of slashes only (those name directories). *)
Definition fs_wf (w : world) : Prop :=
  map_Forall (fun p _ => basename p <> []) (files w).

(** ASCII lower-casing, the reading of [toLowerCase] on an extension. *)
Definition to_lower (c : N) : N :=
  if (65 <=? c) && (c <=? 90) then c + 32 else c.

(** The extensions [importPath] has a branch for. *)
Definition in_dispatch (ext : jsstring) : bool :=
  str_eqb ext [] || str_eqb ext (lit ".md") || str_eqb ext (lit ".ts").

(** The last piece of a string cut at its slashes. *)
Definition last_seg (y : jsstring) : jsstring :=
  default [] (last (split SLASH y)).

(** A segment that [normalizeString] keeps as it is. *)
Definition plain_seg (b : jsstring) : Prop :=
  b <> [] /\ b <> lit "." /\ b <> lit ".." /\ SLASH ∉ b.

(** The path a transforming step of [importPath] materializes its result
    at, for the extensionless and the [.md] case. *)
Definition artifact (filepath : jsstring) : jsstring :=
  path_join (dirname filepath) (basename filepath ++ lit ".mjs").

(** The two paths of the [.ts] case: what the compiler emits and what it
    is renamed to. *)
Definition ts_emitted (filepath : jsstring) : jsstring :=
  path_join (dir (parse filepath)) (name (parse filepath) ++ lit ".js").

Definition ts_outFile (filepath : jsstring) : jsstring :=
  path_join (dir (parse filepath)) (name (parse filepath) ++ lit ".mjs").

(** The result of [import()]. *)
Definition load_outcome (e : env) (filename p : jsstring)
    (f : gmap jsstring jsstring) : outcome unit :=
  match loader e p f filename (dirname filename) with
  | None => Value tt
  | Some err => Throw err
  end.

(** The world after a step that leaves the files [f], the globals bound
    to [filename] and its directory, and the events [evs] in the log. *)
Definition after (w : world) (f : gmap jsstring jsstring)
    (filename : jsstring) (evs : list event) : world :=
  World f (dirs w) (Some (filename, dirname filename)) (trace w ++ evs).

(** The world after a step that leaves the files [f] and the events [evs]
    in the log, the globals as they were. *)
Definition extended (w : world) (f : gmap jsstring jsstring)
    (evs : list event) : world :=
  World f (dirs w) (globals w) (trace w ++ evs).

(** What a caller gets of a call it has started and not awaited yet: its
    value, or its rejection when that comes late enough to be awaited;
    a rejection that arrives at once ends the process. *)
Definition unawaited (e : env) (o : outcome unit) : outcome unit :=
  match o with
  | Throw err => if at_once e err then Unhandled err else Throw err
  | _ => o
  end.

Definition ends_unhandled {A} (o : outcome A) : bool :=
  match o with Unhandled _ => true | _ => false end.


(** The end of every chain, after the events [pre]: the module at [p] is
    loaded from the files [f] with the globals of [origin]; then the
    paths [rms] are removed, unless the rejection of the module arrived
    at once. *)
Definition load_and_remove (e : env) (w : world) (pre : list event)
    (f : gmap jsstring jsstring) (p : jsstring) (rms : list jsstring)
    (origin : jsstring) : world * outcome unit :=
  let F := resolve (cwd e) origin in
  let out := unawaited e (load_outcome e F p f) in
  (after w (if ends_unhandled out then f
            else foldl (fun g q => delete q g) f rms) F
     (pre ++ EvLoad p F (dirname F)
          :: (if ends_unhandled out then [] else map EvRm rms)),
   out).

(** [writeAndImport] on a path [A] that is loaded as it is. *)
Definition write_and_load (e : env) (script A origin : jsstring) (w : world)
    : world * outcome unit :=
  match write_error e A (files w) with
  | Some err => (w, Throw err)
  | None =>
      load_and_remove e w [EvWrite A] (<[A := script]> (files w)) A [A] origin
  end.

(** [writeAndImport] on a path [A] without extension: [A] is read back
    and removed, then its copy [artifact A] is written and loaded. *)
Definition write_twice_and_load (e : env) (script A origin : jsstring)
    (w : world) : world * outcome unit :=
  match write_error e A (files w) with
  | Some err => (w, Throw err)
  | None =>
      let f2 := delete A (<[A := script]> (files w)) in
      match write_error e (artifact A) f2 with
      | Some err => (extended w f2 [EvWrite A; EvRm A], Throw err)
      | None =>
          load_and_remove e w [EvWrite A; EvRm A; EvWrite (artifact A)]
            (<[artifact A := script]> f2) (artifact A) [artifact A] origin
      end
  end.

(** The [.ts] case: compile, rename, load, remove. *)
Definition compile_and_load (e : env) (filepath : jsstring) (w : world)
    : world * outcome unit :=
  match tsc e filepath (files w) with
  | Compiled code =>
      let compiled := <[ts_emitted filepath := code]> (files w) in
      let renamed :=
        <[ts_outFile filepath := code]> (delete (ts_emitted filepath) compiled) in
      load_and_remove e w
        [EvCompile filepath (ts_emitted filepath);
         EvRename (ts_emitted filepath) (ts_outFile filepath)]
        renamed (ts_outFile filepath) [ts_outFile filepath] filepath
  | Failed (Some code) =>
      (extended w (<[ts_emitted filepath := code]> (files w))
         [EvCompile filepath (ts_emitted filepath)], Exit 1)
  | Failed None => (w, Exit 1)
  end.

(** The result of [scriptFromStdin] from that of its [writeAndImport]. *)
Definition as_true (o : outcome unit) : outcome bool :=
  match o with
  | Value _ => Value true
  | Throw err => Throw err
  | Exit c => Exit c
  | Unhandled err => Unhandled err
  | OutOfFuel => OutOfFuel
  end.

(** The temporary script of [scriptFromStdin] and the origin it claims. *)
Definition tmp_script (e : env) : jsstring :=
  path_join (tmpdir e) (random36 e ++ lit ".mjs").

Definition stdin_origin (e : env) : jsstring :=
  path_join (cwd e) (lit "stdin.mjs").

(** A resolution that fails on its own, before any module is loaded. *)
Definition rejected_before_load (w : world) (r : world * outcome unit) : Prop :=
  (exists err, r.2 = Throw err) /\ loads (new_events w r.1) = [].

(** ** A concrete process

    A loader in the manner of Node's: a missing file is an error, a module
    with a known extension loads, any other extension is refused by the
    loader itself. *)
Definition node_loader (p : jsstring) (f : gmap jsstring jsstring)
    (filename dirname : jsstring) : option error :=
  match f !! p with
  | None => Some (ENOENT p)
  | Some _ =>
      if str_eqb (extname p) (lit ".mjs") || str_eqb (extname p) (lit ".js")
         || str_eqb (extname p) (lit ".cjs")
      then None
      else Some (LoadError (lit "ERR_UNKNOWN_FILE_EXTENSION"))
  end.

Definition demo_env : env :=
  Env (lit "/w") (lit "/tmp") (lit "k3j2") (lit "AbCdEf")
    (Some [lit "echo"; lit " 1"]) node_loader
    (fun _ _ => Compiled (lit "export {}"))
    ENOENT (fun _ _ => None) (fun _ => false).

Definition demo_world : world :=
  World (<[lit "/w/README.md" := lit "hello"]>
        (<[lit "/w/README.MD" := lit "hello"]>
        (<[lit "/w/a.js" := lit "1"]>
        (<[lit "/w/a.xyz" := lit "1"]>
        (<[lit "/w/script" := lit "1"]>
        (<[lit "/w/t.ts" := lit "1"]> ∅))))))
    [] None [].

(** The four-line document of the second scenario. *)
Definition scenario2 : jsstring :=
  lit "Some text" ++ LF :: LF :: lit "    indented code" ++ LF :: lit "more text".

(** The document on which the blank-line flag is stale: an indented block,
    a prose line that ends it, an indented line. *)
Definition stale_flag_doc : jsstring :=
  lit "    a" ++ LF :: lit "b" ++ LF :: lit "    c".

(** A loader that refuses every module. *)
Definition refusing_env : env :=
  Env (lit "/w") (lit "/tmp") (lit "k3j2") (lit "AbCdEf")
    (Some [lit "echo"; lit " 1"])
    (fun _ _ _ _ => Some (LoadError (lit "boom")))
    (fun _ _ => Compiled (lit "export {}"))
    ENOENT (fun _ _ => None) (fun _ => false).

(** A loader that refuses every module, at once. *)
Definition hasty_env : env :=
  Env (lit "/w") (lit "/tmp") (lit "k3j2") (lit "AbCdEf")
    (Some [lit "echo"; lit " 1"])
    (fun _ _ _ _ => Some (LoadError (lit "boom")))
    (fun _ _ => Compiled (lit "export {}"))
    ENOENT (fun _ _ => None) (fun _ => true).

(** A file system on which every path that holds no regular file is a
    directory. *)
Definition directories_env : env :=
  Env (lit "/w") (lit "/tmp") (lit "k3j2") (lit "AbCdEf")
    (Some [lit "echo"; lit " 1"]) node_loader
    (fun _ _ => Compiled (lit "export {}"))
    (FsError (lit "EISDIR")) (fun _ _ => None) (fun _ => false).

(** A compiler that emits its output and fails all the same. *)
Definition emitting_tsc_env : env :=
  Env (lit "/w") (lit "/tmp") (lit "k3j2") (lit "AbCdEf")
    (Some [lit "echo"; lit " 1"]) node_loader
    (fun _ _ => Failed (Some (lit "export {}")))
    ENOENT (fun _ _ => None) (fun _ => false).

(** A compiler that fails on every input. *)
Definition failing_tsc_env : env :=
  Env (lit "/w") (lit "/tmp") (lit "k3j2") (lit "AbCdEf")
    (Some [lit "echo"; lit " 1"]) node_loader (fun _ _ => Failed None)
    ENOENT (fun _ _ => None) (fun _ => false).


(** Every load of [evs] saw the globals bound to [filename] and its
    directory. *)
Definition bound_to (filename : jsstring) (evs : list event) : Prop :=
  Forall (fun l => l.1.2 = filename /\ l.2 = dirname filename) (loads evs).

(** The terminal case of [importPath]: bind the globals and load. *)
Definition load_module (e : env) (filepath origin : jsstring) : M unit :=
  assign_globals (resolve (cwd e) origin) (dirname (resolve (cwd e) origin)) ;;;
  import e filepath.

(** ** The top-level block

    The [try] block of the program: the version flag, the choice between
    standard input and a path, and the [catch] that turns a
    [ProcessOutput] into a message and status 1. *)

(** What the top-level block prints: the version line ([console.log]),
    the usage text ([printUsage]) and the error line ([console.error]). *)
Inductive printed :=
  | PrintVersion (line : jsstring)
  | PrintUsage
  | PrintError (line : jsstring).

(** What the block reads besides the environment: the arguments
    ([process.argv.slice(2)]); the reading of the version options from
    these arguments ([argv], parsed in [index.mjs]); the version of
    [package.json]; [url.fileURLToPath]; and, for a thrown value, whether
    it is a [ProcessOutput] and then its [message]. *)
Record invocation := Invocation {
  args : list jsstring;
  wants_version : list jsstring -> bool;
  package_version : jsstring;
  fileURLToPath : jsstring -> jsstring;
  processOutput : error -> option jsstring
}.

(** [argv.version || argv.v || argv.V]: read from the same arguments the
    script is taken from. *)
Definition version_flag (i : invocation) : bool := wants_version i (args i).

(** [process.argv.slice(2).find((a) => !a.startsWith("--"))] *)
Definition firstArg (i : invocation) : option jsstring :=
  List.find (fun a => negb (starts_with (lit "--") a)) (args i).

(** The path [importPath] is called with, for a first argument that
    selects a file. *)
Definition script_path (e : env) (i : invocation) (a : jsstring) : jsstring :=
  if starts_with (lit "/") a then a
  else if starts_with (lit "file:///") a then fileURLToPath i a
  else resolve (cwd e) a.

(** [let ok = await scriptFromStdin(); if (!ok) { printUsage();
    process.exit(2) }], from the result of [scriptFromStdin]. *)
Definition after_stdin (r : world * outcome bool)
    : world * outcome unit * list printed :=
  match r with
  | (w', Value ok) =>
      if ok then (w', Value tt, []) else (w', Exit 2, [PrintUsage])
  | (w', Throw err) => (w', Throw err, [])
  | (w', Exit c) => (w', Exit c, [])
  | (w', Unhandled err) => (w', Unhandled err, [])
  | (w', OutOfFuel) => (w', OutOfFuel, [])
  end.

(** The body of the [try], after the version check. *)
Definition main_try (e : env) (i : invocation) (fuel : nat) (w : world)
    : world * outcome unit * list printed :=
  match firstArg i with
  | None => after_stdin (scriptFromStdin e fuel w)
  | Some a =>
      if str_eqb a (lit "-") then after_stdin (scriptFromStdin e fuel w)
      else
        (importPath e fuel (script_path e i a) (script_path e i a) w, [])
  end.

(** The whole block, [catch] included. *)
Definition main (e : env) (i : invocation) (fuel : nat) (w : world)
    : world * outcome unit * list printed :=
  if version_flag i then
    (w, Exit 0, [PrintVersion (lit "yzx version " ++ package_version i)])
  else
    match main_try e i fuel w with
    | (w', Throw p, out) =>
        match processOutput i p with
        | Some message => (w', Exit 1, out ++ [PrintError (lit "Error: " ++ message)])
        | None => (w', Throw p, out)
        end
    | r => r
    end.

(** ** Vocabulary of the further properties *)

(** How an output line of [transformMarkdown] can come from its input
    line: unchanged, as a comment, or, for a fence marker line only,
    replaced by one of three fixed lines. *)
Definition emitted_from (line out : jsstring) : Prop :=
  out = line \/ out = comment line
  \/ (re_fence_any line = true
      /\ (out = [] \/ out = lit "await $`" \/ out = lit "`")).

(** The paths whose file a run created or overwrote: the artifacts and
    what the compiler emitted. *)
Definition touched (evs : list event) : list jsstring :=
  omap (fun ev => match ev with
                  | EvWrite p => Some p
                  | EvRename _ p => Some p
                  | EvCompile _ out => Some out
                  | _ => None
                  end) evs.

(** An invocation with the arguments replaced. *)
Definition with_args (i : invocation) (l : list jsstring) : invocation :=
  Invocation l (wants_version i) (package_version i) (fileURLToPath i)
    (processOutput i).

(** A concrete invocation: [yzx --quiet README.md extra], where only the
    errors of the loader count as [ProcessOutput]. *)
Definition demo_invocation : invocation :=
  Invocation [lit "--quiet"; lit "README.md"; lit "extra"]
    (existsb (fun a => str_eqb a (lit "--version") || str_eqb a (lit "-v")
                       || str_eqb a (lit "-V")))
    (lit "1.0.0") (drop 7)
    (fun p => match p with LoadError m => Some m | _ => None end).

(** Whether standard input brings a script: it is not a terminal and what
    was read is not empty. *)
Definition has_script (e : env) : bool :=
  match stdin e with
  | Some chunks => bool_decide (0 < length (concat chunks))%nat
  | None => false
  end.

(** The script read from standard input. *)
Definition stdin_script (e : env) : jsstring :=
  match stdin e with Some chunks => concat chunks | None => [] end.



(** A process whose standard input is a terminal. *)
Definition tty_env : env :=
  Env (lit "/w") (lit "/tmp") (lit "k3j2") (lit "AbCdEf") None node_loader
    (fun _ _ => Compiled (lit "export {}"))
    ENOENT (fun _ _ => None) (fun _ => false).

(** ** Tactics *)

(** Closed decidable facts are settled by evaluation. *)
Ltac by_evaluation := apply (bool_decide_unpack _); vm_compute; exact I.

(** * Properties of [transformMarkdown] *)

Lemma split_nonempty sep s : split sep s <> [].
Proof.
  destruct s as [|c s]; simpl; [done|].
  destruct (N.eqb c sep); [done|]. by destruct (split sep s).
Qed.

Lemma split_no_sep sep s : Forall (fun l => sep ∉ l) (split sep s).
Proof.
  induction s as [|c s IH]; simpl.
  - constructor; [|constructor]. by intros ?%elem_of_nil.
  - destruct (N.eqb_spec c sep) as [->|Hne].
    + constructor; [|done]. by intros ?%elem_of_nil.
    + destruct (split sep s) as [|l ls]; inversion IH; subst.
      * constructor; [|constructor]. intros [?|?%elem_of_nil]%elem_of_cons; congruence.
      * constructor; [|done]. intros [?|?]%elem_of_cons; [congruence|done].
Qed.

(** Splitting what [join] built gives the pieces back, when no piece holds
    the separator. *)
Lemma split_join sep ls :
  ls <> [] -> Forall (fun l => sep ∉ l) ls -> split sep (join [sep] ls) = ls.
Proof.
  induction ls as [|l ls IH]; [done|]. intros _ Hall.
  inversion Hall as [|? ? Hl Hls]; subst.
  destruct ls as [|l' ls].
  - simpl. clear IH Hall Hls. induction l as [|c l IHl]; [done|]. simpl.
    destruct (N.eqb_spec c sep) as [->|Hne].
    + exfalso. apply Hl. left.
    + rewrite IHl; [done|]. intros ?. apply Hl. by right.
  - specialize (IH ltac:(done) Hls).
    change (join [sep] (l :: l' :: ls)) with (l ++ [sep] ++ join [sep] (l' :: ls)).
    remember (join [sep] (l' :: ls)) as j eqn:Hj. clear Hall Hls Hj.
    induction l as [|c l IHl]; simpl.
    + rewrite N.eqb_refl. by rewrite IH.
    + destruct (N.eqb_spec c sep) as [->|Hne].
      * exfalso. apply Hl. left.
      * simpl in IHl. rewrite IHl; [done|]. intros ?. apply Hl. by right.
Qed.

Lemma step_output c line : exists x, output (step c line) = output c ++ [x].
Proof.
  unfold step, push.
  destruct (cur_state c);
    repeat match goal with |- context [if ?b then _ else _] => destruct b end;
    simpl; eauto.
Qed.

Lemma fold_step_length lines c :
  length (output (fold_left step lines c)) = (length (output c) + length lines)%nat.
Proof.
  revert c. induction lines as [|l lines IH]; intros c; simpl; [lia|].
  rewrite IH. destruct (step_output c l) as [x ->]. rewrite length_app. simpl. lia.
Qed.

Lemma lit_no_lf_comment line : LF ∉ line -> LF ∉ comment line.
Proof.
  intros H. unfold comment. rewrite elem_of_app. intros [Hin|Hin]; [|done].
  assert (LF ∉ lit "// ") as Hp by by_evaluation. done.
Qed.

Lemma step_no_lf c line :
  LF ∉ line -> Forall (fun l => LF ∉ l) (output c) ->
  Forall (fun l => LF ∉ l) (output (step c line)).
Proof.
  intros Hl Hc. pose proof (lit_no_lf_comment line Hl) as Hcm.
  assert (LF ∉ ([] : jsstring)) as Hnil by (by intros ?%elem_of_nil).
  assert (LF ∉ lit "await $`") as Haw by by_evaluation.
  assert (LF ∉ lit "`") as Hbt by by_evaluation.
  unfold step, push.
  destruct (cur_state c);
    repeat match goal with |- context [if ?b then _ else _] => destruct b end;
    simpl; apply Forall_app; split; try done; by repeat constructor.
Qed.

Lemma fold_step_no_lf lines c :
  Forall (fun l => LF ∉ l) lines -> Forall (fun l => LF ∉ l) (output c) ->
  Forall (fun l => LF ∉ l) (output (fold_left step lines c)).
Proof.
  revert c. induction lines as [|l lines IH]; intros c Hl Hc; simpl; [done|].
  inversion Hl; subst. apply IH; [done|]. by apply step_no_lf.
Qed.

(** C2. [transformMarkdown] is a total function of its input alone, and it
    emits one output line per input line: splitting its result on line
    feeds gives as many pieces as splitting its input. *)
Theorem transformMarkdown_line_count (source : jsstring) :
  length (split LF (transformMarkdown source)) = length (split LF source).
Proof.
  unfold transformMarkdown, run.
  assert (length (output (fold_left step (split LF source) init))
          = length (split LF source)) as Hlen
    by (rewrite fold_step_length; reflexivity).
  rewrite split_join.
  - exact Hlen.
  - intros Hnil. rewrite Hnil in Hlen. simpl in Hlen.
    pose proof (split_nonempty LF source) as Hne.
    destruct (split LF source); [done|discriminate].
  - apply fold_step_no_lf; [apply split_no_sep|constructor].
Qed.

(** C4, as amended. For the input ["Some text\n\n    indented code\nmore text"]
    [transformMarkdown] returns
    ["// Some text\n// \n    indented code\n// more text"]: the blank prose
    line is emitted as the comment prefix ["// "], the indented line
    verbatim and the two prose lines as comments. *)
Theorem transformMarkdown_scenario2 :
  transformMarkdown scenario2
  = lit "// Some text" ++ LF :: lit "// " ++ LF :: lit "    indented code"
      ++ LF :: lit "// more text".
Proof. vm_compute. reflexivity. Qed.

(** C4 as stated fails: the result is not the text with an empty second
    line. *)
Lemma transformMarkdown_scenario2_not_blank :
  transformMarkdown scenario2
  <> lit "// Some text" ++ LF :: LF :: lit "    indented code"
       ++ LF :: lit "// more text".
Proof. vm_compute. discriminate. Qed.

(** C5. A [sh] fence becomes a command literal: the opening line turns
    into [await $`], the body is kept, the bare closing fence turns into
    the closing backtick. *)
Theorem transformMarkdown_sh_fence :
  transformMarkdown (lit "```sh" ++ LF :: lit "echo hi" ++ LF :: lit "```")
  = lit "await $`" ++ LF :: lit "echo hi" ++ LF :: lit "`".
Proof. vm_compute. reflexivity. Qed.

(** C6 at its failing input. The third line of [stale_flag_doc] is
    consumed in the prose state, it starts with four spaces and the line
    before it, ["b"], is not blank; yet [prevLineIsEmpty] is still [true],
    the line is emitted verbatim and starts an indented block. *)
Theorem indented_after_prose_is_code :
  let lines := split LF stale_flag_doc in
  let c := fold_left step (take 2 lines) init in
  lines !! 1%nat = Some (lit "b")
  /\ lines !! 2%nat = Some (lit "    c")
  /\ re_indent4 (lit "    c") = true
  /\ cur_state c = root
  /\ prevLineIsEmpty c = true
  /\ step c (lit "    c") = push (lit "    c") tab c
  /\ transformMarkdown stale_flag_doc
     = lit "    a" ++ LF :: lit "// b" ++ LF :: lit "    c".
Proof. vm_compute. repeat split; reflexivity. Qed.

(** ** Fence balance *)

Lemma starts_with_head a p s : starts_with (a :: p) s = true -> head s = Some a.
Proof.
  destruct s as [|b s]; simpl; [done|].
  intros [H _]%andb_true_iff. apply N.eqb_eq in H. by subst.
Qed.

Lemma indent4_not_fence l : re_indent4 l = true -> re_fence_any l = false.
Proof.
  intros H. destruct (re_fence_any l) eqn:Hf; [|done]. exfalso.
  unfold re_indent4 in H. unfold re_fence_any in Hf.
  apply andb_true_iff in Hf as [Hf _].
  change (lit "```") with (96 :: lit "``") in Hf. apply starts_with_head in Hf.
  apply orb_true_iff in H as [H|H].
  - change (lit "    ") with (32 :: lit "   ") in H.
    apply starts_with_head in H. rewrite Hf in H. discriminate.
  - apply starts_with_head in H. rewrite Hf in H. discriminate.
Qed.

Lemma fence_js_is_fence l : re_fence_js l = true -> re_fence_any l = true.
Proof.
  unfold re_fence_js, str_eqb. intros H. apply orb_true_iff in H.
  destruct H as [H|H]; apply bool_decide_eq_true in H; subst; reflexivity.
Qed.

Lemma fence_sh_is_fence l : re_fence_sh l = true -> re_fence_any l = true.
Proof.
  unfold re_fence_sh, str_eqb. intros H. apply orb_true_iff in H.
  destruct H as [H|H]; apply bool_decide_eq_true in H; subst; reflexivity.
Qed.

(** One line keeps the extractor and the line-level reading of the fences
    in agreement, unless a fence marker is consumed in an indented block. *)
Lemma step_fenced c l :
  (bool_decide (cur_state c = tab) && re_fence_any l) = false ->
  fenced (cur_state (step c l))
  = if fenced (cur_state c) then negb (re_fence_close l) else re_fence_any l.
Proof.
  unfold step. destruct (cur_state c) eqn:Hs; simpl; intros Hnt.
  - pose proof (indent4_not_fence l) as H1.
    pose proof (fence_js_is_fence l) as H2.
    pose proof (fence_sh_is_fence l) as H3.
    destruct (re_indent4 l), (prevLineIsEmpty c), (re_fence_js l),
      (re_fence_sh l), (re_fence_any l); simpl; try reflexivity;
      try (by specialize (H1 eq_refl)); try (by specialize (H2 eq_refl));
      by specialize (H3 eq_refl).
  - rewrite Hnt. by destruct (re_indent l), (str_eqb l []).
  - by destruct (re_fence_close l).
  - by destruct (re_fence_close l).
  - by destruct (re_fence_close l).
Qed.

Lemma run_fenced lines c :
  fence_in_tab c lines = false ->
  fenced (cur_state (fold_left step lines c))
  = fence_open (fenced (cur_state c)) lines.
Proof.
  revert c. induction lines as [|l lines IH]; intros c Hnt; simpl; [done|].
  simpl in Hnt. apply orb_false_iff in Hnt as [Hl Hrest].
  rewrite (IH _ Hrest), (step_fenced c l Hl).
  by destruct (fenced (cur_state c)).
Qed.

(** C7, as amended. On a well-formed document the extractor never finishes
    in a fenced state, provided it consumes no fence marker line while in
    an indented block; it finishes in the prose state or in the
    indented-block state. *)
Theorem fence_balance (source : jsstring) :
  well_formed source ->
  fence_in_tab init (split LF source) = false ->
  final_state source = root \/ final_state source = tab.
Proof.
  unfold well_formed, final_state, run. intros Hwf Hnt.
  pose proof (run_fenced (split LF source) init Hnt) as H.
  simpl in H. rewrite Hwf in H.
  destruct (cur_state (fold_left step (split LF source) init));
    simpl in H; auto; discriminate.
Qed.

Lemma fence_balance_witness :
  well_formed (lit "```js" ++ LF :: lit "let x" ++ LF :: lit "```")
  /\ (final_state (lit "```js" ++ LF :: lit "let x" ++ LF :: lit "```") = root
      \/ final_state (lit "```js" ++ LF :: lit "let x" ++ LF :: lit "```") = tab).
Proof.
  split; [reflexivity|].
  apply (fence_balance (lit "```js" ++ LF :: lit "let x" ++ LF :: lit "```"));
    reflexivity.
Defined.

(** C7 as stated fails: a document of one indented line has no fence at
    all, and the extractor finishes it in the indented-block state. *)
Lemma fence_balance_ends_indented :
  ~ (well_formed (lit "    code") -> final_state (lit "    code") = root).
Proof. intros H. specialize (H eq_refl). vm_compute in H. discriminate. Qed.

(** Why the proviso: a fence marker that ends an indented block is
    commented, so the bare fence after it opens a block that is never
    closed. *)
Lemma fence_marker_after_indent_is_swallowed :
  let doc := lit "    a" ++ LF :: lit "```js" ++ LF :: lit "x" ++ LF :: lit "```" in
  well_formed doc /\ final_state doc = other.
Proof. split; reflexivity. Qed.

Lemma no_indent_stays_out_of_tab lines c :
  Forall (fun l => re_indent4 l = false) lines -> cur_state c <> tab ->
  fence_in_tab c lines = false /\ cur_state (fold_left step lines c) <> tab.
Proof.
  revert c. induction lines as [|l lines IH]; intros c Hall Hc; simpl; [done|].
  inversion Hall as [|? ? Hl Hls]; subst.
  rewrite bool_decide_eq_false_2 by done. simpl. apply IH; [done|].
  unfold step. rewrite Hl. simpl.
  destruct (cur_state c); [| done | | |];
    repeat match goal with |- context [if ?b then _ else _] => destruct b end;
    simpl; done.
Qed.

(** Without indented lines the extractor finishes a well-formed document
    in the prose state. *)
Corollary well_formed_without_indent (source : jsstring) :
  well_formed source ->
  Forall (fun l => re_indent4 l = false) (split LF source) ->
  final_state source = root.
Proof.
  unfold well_formed, final_state, run. intros Hwf Hni.
  destruct (no_indent_stays_out_of_tab (split LF source) init Hni)
    as [Hnt Hend]; [done|].
  pose proof (run_fenced (split LF source) init Hnt) as H.
  simpl in H. rewrite Hwf in H.
  destruct (cur_state (fold_left step (split LF source) init));
    simpl in H; try done.
Qed.

(** * Properties of the path functions *)

Section Split.
Variable sep : N.

Lemma split_free b : sep ∉ b -> split sep b = [b].
Proof.
  induction b as [|c b IH]; [done|]. intros Hb. simpl.
  destruct (N.eqb_spec c sep) as [->|_]; [exfalso; apply Hb; left|].
  rewrite IH; [done|]. intros ?. apply Hb. by right.
Qed.

(** A separator between two strings separates their pieces. *)
Lemma split_app_sep a b : split sep (a ++ sep :: b) = split sep a ++ split sep b.
Proof.
  induction a as [|c a IH]; simpl.
  - by rewrite N.eqb_refl.
  - destruct (N.eqb_spec c sep) as [_|_]; rewrite IH; [done|].
    pose proof (split_nonempty sep a). by destruct (split sep a).
Qed.

(** A separator-free suffix extends the last piece. *)
Lemma split_snoc_free a b :
  sep ∉ b ->
  exists pre z, split sep a = pre ++ [z] /\ split sep (a ++ b) = pre ++ [z ++ b].
Proof.
  intros Hb. induction a as [|c a (pre & z & Ha & Hab)]; simpl.
  - exists [], []. by rewrite split_free.
  - rewrite Ha, Hab. destruct (N.eqb_spec c sep) as [_|_].
    + by exists ([] :: pre), z.
    + destruct pre as [|i pre]; simpl.
      * by exists [], (c :: z).
      * by exists ((c :: i) :: pre), z.
Qed.

Lemma join_snoc (ls : list jsstring) b :
  ls <> [] -> join [sep] (ls ++ [b]) = join [sep] ls ++ sep :: b.
Proof.
  induction ls as [|l ls IH]; [done|]. intros _.
  destruct ls as [|l' ls]; [done|].
  change (join [sep] ((l :: l' :: ls) ++ [b]))
    with (l ++ [sep] ++ join [sep] ((l' :: ls) ++ [b])).
  rewrite IH by done.
  change (join [sep] (l :: l' :: ls)) with (l ++ [sep] ++ join [sep] (l' :: ls)).
  by rewrite <- !app_assoc.
Qed.
End Split.

Lemma last_seg_free y : SLASH ∉ y -> last_seg y = y.
Proof. intros H. unfold last_seg. by rewrite split_free. Qed.

Lemma last_seg_no_slash y : SLASH ∉ last_seg y.
Proof.
  unfold last_seg. pose proof (split_no_sep SLASH y) as Hall.
  destruct (last (split SLASH y)) as [z|] eqn:Hl; simpl.
  - apply last_Some in Hl as [pre Hl]. rewrite Hl in Hall.
    apply Forall_app in Hall as [_ Hz]. by inversion Hz.
  - by intros ?%elem_of_nil.
Qed.

Lemma basename_no_slash p : SLASH ∉ basename p.
Proof.
  unfold basename. pose proof (split_no_sep SLASH p) as Hall.
  destruct (last (filter (fun s => s <> []) (split SLASH p))) as [z|] eqn:Hl; simpl.
  - apply last_Some in Hl as [pre Hl].
    assert (z ∈ filter (fun s => s <> []) (split SLASH p)) as Hin
      by (rewrite Hl; apply elem_of_app; right; left).
    apply list_elem_of_filter in Hin as [_ Hin].
    by apply (proj1 (Forall_forall _ _) Hall).
  - by intros ?%elem_of_nil.
Qed.

(** The last segment of a path whose text ends in [X ++ b], [b] a
    non-empty slash-free segment and [X] empty or closed by a slash. *)
Lemma basename_app_seg X b :
  b <> [] -> SLASH ∉ b -> (X = [] \/ exists X', X = X' ++ [SLASH]) ->
  basename (X ++ b) = b.
Proof.
  intros Hne Hb [->|[X' ->]]; unfold basename.
  - simpl. rewrite split_free by done.
    by rewrite filter_cons_True.
  - rewrite <- app_assoc. simpl. rewrite split_app_sep, (split_free _ b) by done.
    rewrite filter_app, (filter_cons_True _ b []) by done.
    by rewrite filter_nil, last_snoc.
Qed.

Lemma join_split sep s : join [sep] (split sep s) = s.
Proof.
  induction s as [|c s IH]; [done|]. simpl.
  pose proof (split_nonempty sep s) as Hne.
  destruct (N.eqb_spec c sep) as [->|_].
  - destruct (split sep s) as [|l ls]; [done|]. simpl in *. by rewrite IH.
  - destruct (split sep s) as [|l ls]; [done|].
    destruct ls; simpl in *; by rewrite <- IH.
Qed.

Lemma norm_step_plain allow stack b :
  plain_seg b -> norm_step allow stack b = b :: stack.
Proof.
  intros (H0 & H1 & H2 & _). unfold norm_step, str_eqb.
  by rewrite !bool_decide_eq_false_2.
Qed.

Lemma trailingSeparator_seg pre b p :
  plain_seg b -> split SLASH p = pre ++ [b] -> trailingSeparator p = false.
Proof.
  intros (Hne & _ & _ & Hb) Hs. unfold trailingSeparator.
  assert (last p = last b) as ->.
  { rewrite <- (join_split SLASH p), Hs.
    destruct pre as [|i pre]; [done|].
    rewrite join_snoc by done.
    destruct b as [|c b]; [done|].
    by rewrite last_app_cons, last_cons_cons. }
  destruct (last b) as [c|] eqn:Hl; [|done].
  apply last_Some in Hl as [b' ->]. unfold is_slash.
  destruct (N.eqb_spec c SLASH) as [->|]; [|done].
  exfalso. apply Hb. apply elem_of_app. right. left.
Qed.

(** [normalize] keeps a plain last segment last. *)
Lemma normalize_last_seg p pre b :
  plain_seg b -> split SLASH p = pre ++ [b] ->
  exists X, normalize p = X ++ b /\ (X = [] \/ exists X', X = X' ++ [SLASH]).
Proof.
  intros Hb Hs. pose proof (trailingSeparator_seg pre b p Hb Hs) as Hts.
  assert (exists Y, normalizeString p (negb (isAbsolute p)) = Y ++ b
                    /\ (Y = [] \/ exists Y', Y = Y' ++ [SLASH])) as (Y & HY & HYs).
  { unfold normalizeString. rewrite Hs, fold_left_app. simpl.
    rewrite norm_step_plain by done. rewrite reverse_cons.
    destruct (reverse (fold_left (norm_step (negb (isAbsolute p))) pre []))
      as [|i st] eqn:Hst.
    - exists []. split; [done|by left].
    - rewrite join_snoc by done. exists (join [SLASH] (i :: st) ++ [SLASH]).
      split; [by rewrite <- app_assoc|]. right. eauto. }
  destruct p as [|c p].
  { exfalso. simpl in Hs. destruct pre as [|? [|? ?]]; inversion Hs; subst.
    by destruct Hb. }
  unfold normalize. rewrite HY, Hts.
  assert (Y ++ b <> []) as Hne.
  { destruct Hb as (Hb0 & _). intros [_ ?]%app_eq_nil. done. }
  destruct (Y ++ b) as [|y0 yb] eqn:Hyb; [done|]. rewrite <- Hyb.
  destruct (isAbsolute (c :: p)).
  - exists (SLASH :: Y). split; [done|]. right.
    destruct HYs as [->|[Y' ->]]; [by exists []|by exists (SLASH :: Y')].
  - by exists Y.
Qed.

Lemma mjs_plain z : SLASH ∉ z -> plain_seg (z ++ lit ".mjs").
Proof.
  intros Hz. repeat split.
  - intros H%(f_equal length). rewrite length_app in H.
    change (length (lit ".mjs")) with 4%nat in H. simpl in H. lia.
  - intros H%(f_equal length). rewrite length_app in H.
    change (length (lit ".mjs")) with 4%nat in H.
    change (length (lit ".")) with 1%nat in H. lia.
  - intros H%(f_equal length). rewrite length_app in H.
    change (length (lit ".mjs")) with 4%nat in H.
    change (length (lit "..")) with 2%nat in H. lia.
  - rewrite elem_of_app. intros [H|H]; [done|].
    assert (SLASH ∉ lit ".mjs") by by_evaluation. done.
Qed.

(** The artifact path of a transforming step: its last segment is the
    last segment of the name it was given, followed by [.mjs]. *)
Lemma basename_join_mjs d y :
  basename (path_join d (y ++ lit ".mjs")) = last_seg y ++ lit ".mjs".
Proof.
  assert (SLASH ∉ lit ".mjs") as Hm by by_evaluation.
  destruct (split_snoc_free SLASH y (lit ".mjs") Hm) as (pre & z & Hy & Hym).
  assert (last_seg y = z) as -> by (unfold last_seg; by rewrite Hy, last_snoc).
  assert (SLASH ∉ z) as Hz.
  { pose proof (split_no_sep SLASH y) as Hall. rewrite Hy in Hall.
    apply Forall_app in Hall as [_ Hall]. by inversion Hall. }
  pose proof (mjs_plain z Hz) as Hp.
  assert (exists pre', split SLASH
            match d with [] => y ++ lit ".mjs" | _ => d ++ SLASH :: y ++ lit ".mjs" end
          = pre' ++ [z ++ lit ".mjs"]) as [pre' Hs].
  { destruct d as [|c d]; [eauto|].
    rewrite split_app_sep, Hym, app_assoc. eauto. }
  assert (path_join d (y ++ lit ".mjs")
          = normalize match d with
                      | [] => y ++ lit ".mjs"
                      | _ => d ++ SLASH :: y ++ lit ".mjs"
                      end) as ->.
  { unfold path_join. destruct d; [done|].
    destruct (y ++ lit ".mjs") eqn:E; [|done].
    apply (f_equal length) in E. rewrite length_app in E.
    change (length (lit ".mjs")) with 4%nat in E. simpl in E. lia. }
  destruct (normalize_last_seg _ pre' _ Hp Hs) as (X & -> & HX).
  destruct Hp as (? & _ & _ & ?). by apply basename_app_seg.
Qed.

(** * Runs of [importPath] *)

Lemma last_dot_suffix_mjs z : last_dot_suffix (z ++ lit ".mjs") = Some (lit ".mjs").
Proof. induction z as [|c z IH]; [reflexivity|]. simpl. by rewrite IH. Qed.

Lemma ext_of_mjs z :
  ext_of (z ++ lit ".mjs") = if bool_decide (z = []) then [] else lit ".mjs".
Proof.
  unfold ext_of. rewrite last_dot_suffix_mjs.
  destruct z as [|c z]; [reflexivity|].
  rewrite (bool_decide_eq_false_2 (c :: z = [])) by done.
  rewrite bool_decide_eq_false_2.
  - unfold str_eqb. rewrite bool_decide_eq_false_2; [done|].
    intros H%(f_equal length). rewrite length_app in H.
    change (length (lit ".mjs")) with 4%nat in H.
    change (length (lit "..")) with 2%nat in H. simpl in H. lia.
  - rewrite length_app. change (length (lit ".mjs")) with 4%nat. simpl. lia.
Qed.

(** The extension of an artifact path. *)
Lemma extname_join_mjs d y :
  extname (path_join d (y ++ lit ".mjs"))
  = if bool_decide (last_seg y = []) then [] else lit ".mjs".
Proof. unfold extname. by rewrite basename_join_mjs, ext_of_mjs. Qed.

Lemma extname_artifact fp :
  extname (artifact fp) = if bool_decide (basename fp = []) then [] else lit ".mjs".
Proof.
  unfold artifact. rewrite extname_join_mjs.
  by rewrite last_seg_free by apply basename_no_slash.
Qed.

Lemma basename_artifact fp : basename (artifact fp) = basename fp ++ lit ".mjs".
Proof.
  unfold artifact. rewrite basename_join_mjs.
  by rewrite last_seg_free by apply basename_no_slash.
Qed.

Lemma last_dot_suffix_app b s :
  last_dot_suffix b = Some s -> exists pre, b = pre ++ s.
Proof.
  revert s. induction b as [|c b IH]; intros s; simpl; [done|].
  destruct (last_dot_suffix b) as [s'|].
  - intros [= <-]. destruct (IH s' eq_refl) as [pre ->]. by exists (c :: pre).
  - destruct (N.eqb c DOT); [|done]. intros [= <-]. by exists [].
Qed.

(** A segment with an extension is a non-empty name followed by it. *)
Lemma ext_of_split b :
  ext_of b <> [] ->
  exists n, n <> [] /\ b = n ++ ext_of b
            /\ take (length b - length (ext_of b)) b = n.
Proof.
  unfold ext_of. destruct (last_dot_suffix b) as [s|] eqn:Hs; [|done].
  destruct (last_dot_suffix_app b s Hs) as [pre ->].
  case_bool_decide as Hlen; [done|].
  destruct (str_eqb (pre ++ s) (lit "..")); [done|]. intros _.
  exists pre. rewrite length_app in *. split; [|split; [done|]].
  - intros ->. simpl in Hlen. lia.
  - replace (length pre + length s - length s)%nat with (length pre) by lia.
    by rewrite take_app_length.
Qed.

Lemma extname_ts_outFile fp :
  extname fp = lit ".ts" -> extname (ts_outFile fp) = lit ".mjs".
Proof.
  intros Hext. unfold ts_outFile, parse. simpl.
  unfold extname in Hext.
  destruct (ext_of_split (basename fp)) as (n & Hn & Hb & ->);
    [rewrite Hext; discriminate|].
  rewrite extname_join_mjs.
  assert (SLASH ∉ n) as Hns.
  { pose proof (basename_no_slash fp) as H. rewrite Hb in H.
    intros ?. apply H. apply elem_of_app. by left. }
  rewrite last_seg_free by done. by rewrite bool_decide_eq_false_2.
Qed.

(** The terminal case: nothing but binding the globals and loading. *)
Lemma importPath_call_terminal e n fp o w :
  in_dispatch (extname fp) = false ->
  importPath_call e (S n) fp o w
  = (after w (files w) (resolve (cwd e) o)
       [EvLoad fp (resolve (cwd e) o) (dirname (resolve (cwd e) o))],
     match loader e fp (files w) (resolve (cwd e) o)
             (dirname (resolve (cwd e) o)) with
     | None => Value (ret tt)
     | Some err => Throw err
     end).
Proof.
  unfold in_dispatch. intros H.
  apply orb_false_iff in H as [H H3]. apply orb_false_iff in H as [H1 H2].
  simpl. rewrite H1, H2, H3. cbv iota beta.
  unfold bind, assign_globals, import, ret, after, log. simpl.
  by destruct (loader e fp (files w) _ _).
Qed.

Lemma load_module_run e fp o w :
  load_module e fp o w
  = (after w (files w) (resolve (cwd e) o)
       [EvLoad fp (resolve (cwd e) o) (dirname (resolve (cwd e) o))],
     load_outcome e (resolve (cwd e) o) fp (files w)).
Proof.
  unfold load_module, bind, assign_globals, import, load_outcome, after, log.
  simpl. by destruct (loader e fp (files w) _ _).
Qed.

Lemma importPath_terminal e n fp o w :
  in_dispatch (extname fp) = false ->
  importPath e (S n) fp o w = load_module e fp o w.
Proof.
  intros H. rewrite load_module_run. unfold importPath, bind at 1.
  rewrite (importPath_call_terminal e n fp o w H). unfold load_outcome.
  by destruct (loader e fp (files w) _ _).
Qed.

(** The three transforming branches of [importPath]: the call, and the
    call awaited. *)
Lemma importPath_call_raw e n fp o w :
  extname fp = [] ->
  importPath_call e (S n) fp o w
  = match files w !! fp with
    | None => (w, Throw (read_error e fp))
    | Some data =>
        (w, Value (writeAndImport_with e (importPath_call e n) data
                     (artifact fp) o))
    end.
Proof.
  intros H. simpl. rewrite H. change (str_eqb [] []) with true. cbv iota beta.
  unfold bind, readFile, ret. by destruct (files w !! fp).
Qed.

Lemma importPath_raw e n fp o w :
  extname fp = [] ->
  importPath e (S n) fp o w
  = match files w !! fp with
    | None => (w, Throw (read_error e fp))
    | Some data =>
        writeAndImport_with e (importPath_call e n) data (artifact fp) o w
    end.
Proof.
  intros H. unfold importPath, bind at 1.
  rewrite (importPath_call_raw e n fp o w H). by destruct (files w !! fp).
Qed.

Lemma importPath_md e n fp o w :
  extname fp = lit ".md" ->
  importPath e (S n) fp o w
  = match files w !! fp with
    | None => (w, Throw (read_error e fp))
    | Some data =>
        writeAndImport_with e (importPath_call e n) (transformMarkdown data)
          (artifact fp) o w
    end.
Proof.
  intros H. unfold importPath, bind at 1. simpl. rewrite H.
  change (str_eqb (lit ".md") []) with false.
  change (str_eqb (lit ".md") (lit ".md")) with true. cbv iota beta.
  unfold bind, readFile, ret. by destruct (files w !! fp).
Qed.

Lemma importPath_ts e n fp o w :
  extname fp = lit ".ts" ->
  importPath e (S n) fp o w
  = (compile e fp ;;;
     rename (ts_emitted fp) (ts_outFile fp) ;;;
     wait <- start e (importPath_call e n (ts_outFile fp) fp) ;;
     rm (ts_outFile fp) ;;;
     await wait) w.
Proof.
  intros H. unfold importPath, bind at 1. cbn [importPath_call]. rewrite H.
  change (str_eqb (lit ".ts") []) with false.
  change (str_eqb (lit ".ts") (lit ".md")) with false.
  change (str_eqb (lit ".ts") (lit ".ts")) with true. cbv iota beta.
  fold (ts_emitted fp). fold (ts_outFile fp).
  set (rest := bind (rename (ts_emitted fp) (ts_outFile fp)) _).
  unfold bind, ret. by destruct (compile e fp w) as [w1 [[]|?|?|?|]].
Qed.

(** [writeAndImport] on a path the resolver loads directly: write, load,
    delete; the result is the loader's, and its rejection, when it comes
    at once, ends the process before the deletion. *)
Lemma writeAndImport_terminal e n script A o w :
  in_dispatch (extname A) = false ->
  writeAndImport_with e (importPath_call e (S n)) script A o w
  = write_and_load e script A o w.
Proof.
  intros HA. unfold writeAndImport_with, write_and_load, load_and_remove.
  unfold bind at 1, writeFile.
  destruct (write_error e A (files w)) as [err|]; [done|].
  unfold bind at 1, start.
  rewrite (importPath_call_terminal e n A o _ HA).
  unfold load_outcome, unawaited, await, bind, rm, ret, after, log, set_files.
  simpl.
  destruct (loader e A _ _ _) as [err|]; simpl;
    [destruct (at_once e err); simpl|];
    rewrite ?lookup_insert_eq; simpl; by rewrite <- ?app_assoc.
Qed.

(** [writeAndImport] on a path without extension whose own artifact is
    loaded directly: the path is written, read back and deleted; then
    its artifact is written, loaded and deleted. *)
Lemma writeAndImport_nested e n script A o w :
  extname A = [] ->
  in_dispatch (extname (artifact A)) = false ->
  writeAndImport_with e (importPath_call e (S (S n))) script A o w
  = write_twice_and_load e script A o w.
Proof.
  intros HA HA2.
  unfold writeAndImport_with at 1, write_twice_and_load.
  unfold bind at 1. unfold writeFile at 1.
  destruct (write_error e A (files w)) as [err|]; [done|].
  unfold bind at 1. unfold start at 1.
  rewrite (importPath_call_raw e (S n) A o _ HA). simpl files at 1.
  rewrite lookup_insert_eq.
  unfold bind at 1. unfold rm at 1. simpl files at 1. rewrite lookup_insert_eq.
  unfold await.
  rewrite (writeAndImport_terminal e n script (artifact A) o _ HA2).
  unfold write_and_load. simpl files.
  destruct (write_error e (artifact A) _) as [err|].
  { unfold extended, log, set_files. simpl. by rewrite <- !app_assoc. }
  unfold load_and_remove, after, log, set_files. simpl.
  by rewrite <- !app_assoc.
Qed.

Lemma ext_nonempty_basename fp : extname fp <> [] -> basename fp <> [].
Proof. unfold extname. intros H Hb. by rewrite Hb in H. Qed.

Lemma artifact_terminal fp :
  basename fp <> [] -> in_dispatch (extname (artifact fp)) = false.
Proof. intros H. by rewrite extname_artifact, bool_decide_eq_false_2. Qed.

Lemma artifact_nameless fp : basename fp = [] -> extname (artifact fp) = [].
Proof. intros H. by rewrite extname_artifact, bool_decide_eq_true_2. Qed.

Lemma artifact_artifact_terminal fp :
  in_dispatch (extname (artifact (artifact fp))) = false.
Proof.
  apply artifact_terminal. rewrite basename_artifact.
  intros [_ H]%app_eq_nil. discriminate.
Qed.

(** The run of a [.md] path. *)
Lemma importPath_md_run e n fp o w :
  extname fp = lit ".md" ->
  importPath e (S (S n)) fp o w
  = match files w !! fp with
    | None => (w, Throw (read_error e fp))
    | Some data => write_and_load e (transformMarkdown data) (artifact fp) o w
    end.
Proof.
  intros H. rewrite (importPath_md e (S n) fp o w H).
  destruct (files w !! fp) as [data|]; [|done].
  apply writeAndImport_terminal, artifact_terminal, ext_nonempty_basename.
  by rewrite H.
Qed.

(** The run of a path without extension. *)
Lemma importPath_raw_run e n fp o w :
  extname fp = [] ->
  importPath e (S (S (S n))) fp o w
  = match files w !! fp with
    | None => (w, Throw (read_error e fp))
    | Some data =>
        if bool_decide (basename fp = []) then
          write_twice_and_load e data (artifact fp) o w
        else write_and_load e data (artifact fp) o w
    end.
Proof.
  intros H. rewrite (importPath_raw e (S (S n)) fp o w H).
  destruct (files w !! fp) as [data|]; [|done].
  case_bool_decide as Hb.
  - apply writeAndImport_nested;
      [by apply artifact_nameless|apply artifact_artifact_terminal].
  - by apply writeAndImport_terminal, artifact_terminal.
Qed.

(** With a named file, one level of recursion is enough. *)
Lemma importPath_raw_run_named e n fp o w :
  extname fp = [] -> basename fp <> [] ->
  importPath e (S (S n)) fp o w
  = match files w !! fp with
    | None => (w, Throw (read_error e fp))
    | Some data => write_and_load e data (artifact fp) o w
    end.
Proof.
  intros H Hb. rewrite (importPath_raw e (S n) fp o w H).
  destruct (files w !! fp) as [data|]; [|done].
  by apply writeAndImport_terminal, artifact_terminal.
Qed.

(** The run of a [.ts] path. *)
Lemma importPath_ts_run e n fp o w :
  extname fp = lit ".ts" ->
  importPath e (S (S n)) fp o w = compile_and_load e fp w.
Proof.
  intros H. rewrite (importPath_ts e (S n) fp o w H).
  unfold compile_and_load, bind at 1, compile. fold (ts_emitted fp).
  destruct (tsc e fp (files w)) as [code|[code|]]; [|done|done].
  unfold bind at 1, rename. simpl files. rewrite lookup_insert_eq.
  unfold bind at 1, start.
  rewrite (importPath_call_terminal e n (ts_outFile fp) fp)
    by (by rewrite extname_ts_outFile).
  unfold load_and_remove, load_outcome, unawaited, bind, await, rm, ret, after,
    log, set_files. simpl.
  destruct (loader e (ts_outFile fp) _ _ _) as [err|]; simpl;
    [destruct (at_once e err); simpl|];
    rewrite ?lookup_insert_eq; simpl; by rewrite <- ?app_assoc.
Qed.

(** * The format resolver *)

Lemma new_events_after w f F evs : new_events w (after w f F evs) = evs.
Proof. unfold new_events, after. simpl. by rewrite drop_app_length. Qed.

Lemma new_events_same w : new_events w w = [].
Proof. unfold new_events. by rewrite drop_all. Qed.

(** C1, as amended. [importPath] has no check of its own for an unknown
    extension: a path whose extension is none of the empty one, [.md] and
    [.ts] is handed to the module loader as it is, with the globals bound;
    no file is touched and the result is the loader's. *)
Theorem importPath_unlisted_extension_is_loaded e n fp o w :
  in_dispatch (extname fp) = false ->
  loads (new_events w (importPath e (S n) fp o w).1)
    = [(fp, resolve (cwd e) o, dirname (resolve (cwd e) o))]
  /\ files (importPath e (S n) fp o w).1 = files w
  /\ (importPath e (S n) fp o w).2 = load_outcome e (resolve (cwd e) o) fp (files w).
Proof.
  intros H. rewrite (importPath_terminal e n fp o w H), load_module_run. simpl.
  by rewrite new_events_after.
Qed.

Lemma importPath_unlisted_extension_witness :
  loads (new_events demo_world
           (importPath demo_env 1 (lit "/w/a.xyz") (lit "/w/a.xyz") demo_world).1)
    = [(lit "/w/a.xyz", resolve (cwd demo_env) (lit "/w/a.xyz"),
        dirname (resolve (cwd demo_env) (lit "/w/a.xyz")))]
  /\ files (importPath demo_env 1 (lit "/w/a.xyz") (lit "/w/a.xyz") demo_world).1
     = files demo_world
  /\ (importPath demo_env 1 (lit "/w/a.xyz") (lit "/w/a.xyz") demo_world).2
     = load_outcome demo_env (resolve (cwd demo_env) (lit "/w/a.xyz"))
         (lit "/w/a.xyz") (files demo_world).
Proof.
  apply (importPath_unlisted_extension_is_loaded demo_env 0 (lit "/w/a.xyz")).
  reflexivity.
Defined.

(** C1 as stated fails: [/w/a.js] has an extension outside the table, yet
    its resolution reaches the loader and succeeds. *)
Lemma importPath_js_is_not_rejected :
  ~ rejected_before_load demo_world
      (importPath demo_env 3 (lit "/w/a.js") (lit "/w/a.js") demo_world).
Proof. intros [_ H]. vm_compute in H. discriminate. Qed.

(** The same run, spelled out: one load, and success. *)
Lemma importPath_js_run :
  let r := importPath demo_env 3 (lit "/w/a.js") (lit "/w/a.js") demo_world in
  r.2 = Value tt
  /\ new_events demo_world r.1 = [EvLoad (lit "/w/a.js") (lit "/w/a.js") (lit "/w")].
Proof. vm_compute. split; reflexivity. Qed.

Lemma to_lower_fixed_dispatch ext :
  in_dispatch ext = true -> map to_lower ext = ext.
Proof.
  unfold in_dispatch, str_eqb. intros H.
  apply orb_true_iff in H as [H|H]; [apply orb_true_iff in H as [H|H]|];
    apply bool_decide_eq_true in H; subst; reflexivity.
Qed.

(** C10, as amended. The extension is compared as [extname] returns it,
    letter case kept: a path whose extension equals a table entry only
    after lower-casing (such as [.MD]) is not transformed; it is handed
    to the module loader as it is. *)
Theorem importPath_extension_is_case_sensitive e n fp o w :
  in_dispatch (map to_lower (extname fp)) = true ->
  map to_lower (extname fp) <> extname fp ->
  transforming_steps (new_events w (importPath e (S n) fp o w).1) = 0%nat
  /\ loads (new_events w (importPath e (S n) fp o w).1)
     = [(fp, resolve (cwd e) o, dirname (resolve (cwd e) o))].
Proof.
  intros Hlow Hne.
  assert (in_dispatch (extname fp) = false) as H.
  { destruct (in_dispatch (extname fp)) eqn:E; [|done].
    by apply to_lower_fixed_dispatch in E. }
  rewrite (importPath_terminal e n fp o w H), load_module_run. simpl.
  by rewrite new_events_after.
Qed.

Lemma importPath_extension_case_witness :
  transforming_steps
    (new_events demo_world
       (importPath demo_env 1 (lit "/w/README.MD") (lit "/w/README.MD") demo_world).1)
  = 0%nat
  /\ loads
       (new_events demo_world
          (importPath demo_env 1 (lit "/w/README.MD") (lit "/w/README.MD") demo_world).1)
     = [(lit "/w/README.MD", resolve (cwd demo_env) (lit "/w/README.MD"),
         dirname (resolve (cwd demo_env) (lit "/w/README.MD")))].
Proof.
  apply (importPath_extension_is_case_sensitive demo_env 0 (lit "/w/README.MD"));
    [reflexivity|by_evaluation].
Defined.

(** C10 as stated fails: [README.md] goes through the literate extractor
    (one artifact is written, loaded and removed), [README.MD] does not:
    it is loaded as it is, and refused by the loader. *)
Lemma importPath_upper_md_is_not_extracted :
  let lower := importPath demo_env 3 (lit "/w/README.md") (lit "/w/README.md") demo_world in
  let upper := importPath demo_env 3 (lit "/w/README.MD") (lit "/w/README.MD") demo_world in
  new_events demo_world lower.1
    = [EvWrite (lit "/w/README.md.mjs");
       EvLoad (lit "/w/README.md.mjs") (lit "/w/README.md") (lit "/w");
       EvRm (lit "/w/README.md.mjs")]
  /\ lower.2 = Value tt
  /\ new_events demo_world upper.1
     = [EvLoad (lit "/w/README.MD") (lit "/w/README.MD") (lit "/w")]
  /\ upper.2 = Throw (LoadError (lit "ERR_UNKNOWN_FILE_EXTENSION"))
  /\ extname (lit "/w/README.MD") = lit ".MD".
Proof. vm_compute. repeat split; reflexivity. Qed.

Lemma dispatch_cases ext :
  ext = [] \/ ext = lit ".md" \/ ext = lit ".ts" \/ in_dispatch ext = false.
Proof. unfold in_dispatch, str_eqb. repeat case_bool_decide; auto. Qed.

(** ** Shapes of a run *)

Lemma removals_cons ev evs p :
  removals (ev :: evs) p
  = ((if decide (ev = EvRm p) then 1 else 0) + removals evs p)%nat.
Proof. unfold removals. rewrite filter_cons. by case_decide. Qed.

(** Counting the deletions in an explicit list of events. *)
Ltac count_removals :=
  rewrite ?removals_cons; unfold removals; rewrite ?filter_nil; simpl;
  repeat (case_decide; simplify_eq); simpl; try done.

Lemma new_events_extended w f evs : new_events w (extended w f evs) = evs.
Proof. unfold new_events, extended. simpl. by rewrite drop_app_length. Qed.

Lemma artifact_differs fp : artifact fp <> fp.
Proof.
  intros H%(f_equal basename)%(f_equal length).
  rewrite basename_artifact, length_app in H.
  change (length (lit ".mjs")) with 4%nat in H. lia.
Qed.

Lemma load_outcome_settled e F p f :
  load_outcome e F p f <> OutOfFuel /\ forall c, load_outcome e F p f <> Exit c.
Proof. unfold load_outcome. by destruct (loader e p f F (dirname F)). Qed.

(** The runs of [writeAndImport] and of the [.ts] case, one answer of the
    file system, the compiler and the loader at a time. *)
Ltac run_leaves :=
  unfold write_and_load, write_twice_and_load, compile_and_load,
    load_and_remove, unawaited, load_outcome;
  repeat (match goal with
          | |- context [write_error ?e ?p ?f] =>
              destruct (write_error e p f) as [?|] eqn:?
          | |- context [tsc ?e ?p ?f] =>
              destruct (tsc e p f) as [?|[?|]] eqn:?
          | |- context [loader ?e ?p ?f ?F ?D] =>
              destruct (loader e p f F D) as [?|] eqn:?
          | |- context [at_once ?e ?err] =>
              destruct (at_once e err) eqn:?
          end; cbv beta iota zeta);
  simpl; rewrite ?new_events_after, ?new_events_extended, ?new_events_same;
  simpl.

(** Looking up a path after the writes and deletions of a run. *)
Ltac settle_elem :=
  repeat match goal with
         | H : context [_ ∈ _ :: _] |- _ => rewrite elem_of_cons in H
         | H : context [_ ∈ []] |- _ => rewrite elem_of_nil in H
         end;
  rewrite ?elem_of_cons, ?elem_of_nil; intuition congruence.

Ltac settle_lookup :=
  repeat (rewrite lookup_delete || rewrite lookup_insert);
  repeat case_decide; subst; first [done | congruence | settle_elem].



(** The three facts about a run whose result is known in full. *)
Ltac settle_run :=
  split; [done|];
  split; [by repeat constructor|];
  unfold transforming_steps; simpl; lia.

(** Every run of [importPath] with fuel for three calls finishes, loads
    with the globals of its effective origin, and takes two transforming
    steps at most. *)
Lemma importPath_shapes e n fp o w :
  let r := importPath e (S (S (S n))) fp o w in
  let evs := new_events w r.1 in
  r.2 <> OutOfFuel
  /\ bound_to
       (resolve (cwd e) (if str_eqb (extname fp) (lit ".ts") then fp else o)) evs
  /\ (transforming_steps evs <= 2)%nat.
Proof.
  destruct (dispatch_cases (extname fp)) as [H|[H|[H|H]]].
  - rewrite (importPath_raw_run e n fp o w H), H.
    destruct (files w !! fp) as [data|]; [case_bool_decide|];
      run_leaves; settle_run.
  - rewrite (importPath_md_run e (S n) fp o w H), H.
    destruct (files w !! fp) as [data|]; run_leaves; settle_run.
  - rewrite (importPath_ts_run e (S n) fp o w H), H. run_leaves; settle_run.
  - assert (str_eqb (extname fp) (lit ".ts") = false) as ->.
    { unfold in_dispatch in H. by apply orb_false_iff in H as [_ ?]. }
    rewrite (importPath_terminal e _ fp o w H), load_module_run.
    run_leaves; settle_run.
Qed.


(** A path the resolution did not write to holds what it held. *)
Lemma importPath_frame e n fp o w p :
  p ∉ touched (new_events w (importPath e (S (S (S n))) fp o w).1) ->
  files (importPath e (S (S (S n))) fp o w).1 !! p = files w !! p.
Proof.
  destruct (dispatch_cases (extname fp)) as [H|[H|[H|H]]].
  - rewrite (importPath_raw_run e n fp o w H).
    destruct (files w !! fp) as [data|]; [case_bool_decide|];
      run_leaves; intros Hp; settle_lookup.
  - rewrite (importPath_md_run e (S n) fp o w H).
    destruct (files w !! fp) as [data|]; run_leaves; intros Hp; settle_lookup.
  - rewrite (importPath_ts_run e (S n) fp o w H).
    run_leaves; intros Hp; settle_lookup.
  - rewrite (importPath_terminal e _ fp o w H), load_module_run.
    run_leaves; intros Hp; settle_lookup.
Qed.

(** [process.exit] is reached in [compile] only. *)
Lemma importPath_exit e n fp o w c :
  (importPath e (S (S (S n))) fp o w).2 = Exit c ->
  c = 1 /\ exists emitted, tsc e fp (files w) = Failed emitted.
Proof.
  destruct (dispatch_cases (extname fp)) as [H|[H|[H|H]]].
  - rewrite (importPath_raw_run e n fp o w H).
    destruct (files w !! fp) as [data|]; [case_bool_decide|];
      run_leaves; done.
  - rewrite (importPath_md_run e (S n) fp o w H).
    destruct (files w !! fp) as [data|]; run_leaves; done.
  - rewrite (importPath_ts_run e (S n) fp o w H).
    run_leaves; try done; intros [= <-]; eauto.
  - rewrite (importPath_terminal e _ fp o w H), load_module_run.
    run_leaves; done.
Qed.

Lemma new_events_after_log w w0 ev f F evs :
  trace w0 = trace w ->
  new_events w (after (log ev w0) f F evs) = ev :: evs.
Proof.
  intros H. unfold new_events, after, log. simpl. rewrite H, <- app_assoc.
  by rewrite drop_app_length.
Qed.

Lemma new_events_extended_log w w0 ev f evs :
  trace w0 = trace w ->
  new_events w (extended (log ev w0) f evs) = ev :: evs.
Proof.
  intros H. unfold new_events, extended, log. simpl. rewrite H, <- app_assoc.
  by rewrite drop_app_length.
Qed.

Lemma new_events_log w w0 ev :
  trace w0 = trace w -> new_events w (log ev w0) = [ev].
Proof.
  intros H. unfold new_events, log. simpl. rewrite H.
  by rewrite drop_app_length.
Qed.

Lemma basename_tmp_script e : basename (tmp_script e) <> [].
Proof.
  unfold tmp_script. rewrite basename_join_mjs.
  intros [_ H]%app_eq_nil. discriminate.
Qed.

Lemma extname_tmp_script e :
  extname (tmp_script e)
  = if bool_decide (last_seg (random36 e) = []) then [] else lit ".mjs".
Proof. unfold tmp_script. apply extname_join_mjs. Qed.

(** ** Standard input *)

(** Without a script on standard input nothing happens: when it is a
    terminal, or when nothing was read from it, [scriptFromStdin] returns
    [false] and leaves the world as it was. *)
Lemma scriptFromStdin_without_script e n w :
  has_script e = false -> scriptFromStdin e n w = (w, Value false).
Proof.
  unfold has_script, scriptFromStdin. destruct (stdin e) as [chunks|]; [|done].
  by intros ->.
Qed.

(** The run of [scriptFromStdin] on a script. *)
Lemma scriptFromStdin_script_run e n w :
  has_script e = true ->
  let d := tmp_script e ++ mkdtemp_suffix e in
  let w1 := log (EvMkdtemp d)
              (World (files w) (dirs w ++ [d]) (globals w) (trace w)) in
  let r := (if bool_decide (last_seg (random36 e) = [])
            then write_twice_and_load else write_and_load)
             e (stdin_script e) (tmp_script e) (stdin_origin e) w1 in
  scriptFromStdin e (S (S n)) w = (r.1, as_true r.2).
Proof.
  unfold has_script, scriptFromStdin, stdin_script.
  fold (tmp_script e). fold (stdin_origin e).
  destruct (stdin e) as [chunks|]; [|done]. intros ->. cbv zeta.
  unfold bind at 1, mkdtemp. unfold writeAndImport.
  pose proof (extname_tmp_script e) as Hext. case_bool_decide as Hr.
  - unfold bind at 1.
    rewrite (writeAndImport_nested e n (concat chunks) _ _ _ Hext)
      by (apply artifact_terminal, basename_tmp_script).
    by destruct (write_twice_and_load _ _ _ _ _) as [w2 [[]|?|?|?|]].
  - unfold bind at 1.
    rewrite (writeAndImport_terminal e (S n) (concat chunks))
      by (by rewrite Hext).
    by destruct (write_and_load _ _ _ _ _) as [w2 [[]|?|?|?|]].
Qed.

(** The leaves of a run of [scriptFromStdin] on a script. *)
Ltac stdin_leaves :=
  cbv zeta; case_bool_decide; run_leaves;
  rewrite ?new_events_after_log, ?new_events_extended_log, ?new_events_log
    by done;
  simpl.

(** Every run of [scriptFromStdin] with fuel for two calls of
    [importPath] finishes, without [process.exit], and loads with the
    globals of the synthetic origin. *)
Lemma scriptFromStdin_shapes e n w :
  (scriptFromStdin e (S (S n)) w).2 <> OutOfFuel
  /\ (forall c, (scriptFromStdin e (S (S n)) w).2 <> Exit c)
  /\ bound_to (resolve (cwd e) (stdin_origin e))
       (new_events w (scriptFromStdin e (S (S n)) w).1).
Proof.
  destruct (has_script e) eqn:Hs.
  - rewrite (scriptFromStdin_script_run e n w Hs).
    stdin_leaves; (split; [done|]); (split; [done|]); by repeat constructor.
  - rewrite (scriptFromStdin_without_script e _ w Hs). simpl.
    rewrite new_events_same. by repeat constructor.
Qed.


(** * Cleanup *)

(** C3 at its failing inputs. The module made from [/w/README.md]
    rejects at once: the process is ended by the unhandled rejection
    while [fs.rm] is pending, and the artifact [README.md.mjs] is still
    there, deleted zero times. The same happens to the script of
    standard input and to the output [t.mjs] of the [.ts] chain; and a
    compiler that fails after emitting [t.js] leaves that file, since
    [compile] exits at once. *)
Theorem artifact_is_left_when_the_consumer_fails_at_once :
  let md := importPath hasty_env 3 (lit "/w/README.md") (lit "/w/README.md")
              demo_world in
  let stdin := scriptFromStdin hasty_env 2 demo_world in
  let ts := importPath hasty_env 3 (lit "/w/t.ts") (lit "/w/t.ts") demo_world in
  let tsc_fails :=
    importPath emitting_tsc_env 3 (lit "/w/t.ts") (lit "/w/t.ts") demo_world in
  (md.2 = Unhandled (LoadError (lit "boom"))
   /\ artifacts (new_events demo_world md.1) = [lit "/w/README.md.mjs"]
   /\ files md.1 !! lit "/w/README.md.mjs" = Some (lit "// hello")
   /\ removals (new_events demo_world md.1) (lit "/w/README.md.mjs") = 0%nat)
  /\ (stdin.2 = Unhandled (LoadError (lit "boom"))
      /\ artifacts (new_events demo_world stdin.1) = [lit "/tmp/k3j2.mjs"]
      /\ files stdin.1 !! lit "/tmp/k3j2.mjs" = Some (lit "echo 1")
      /\ removals (new_events demo_world stdin.1) (lit "/tmp/k3j2.mjs") = 0%nat)
  /\ (ts.2 = Unhandled (LoadError (lit "boom"))
      /\ artifacts (new_events demo_world ts.1) = [lit "/w/t.mjs"]
      /\ files ts.1 !! lit "/w/t.mjs" = Some (lit "export {}")
      /\ removals (new_events demo_world ts.1) (lit "/w/t.mjs") = 0%nat)
  /\ (tsc_fails.2 = Exit 1
      /\ files tsc_fails.1 !! lit "/w/t.js" = Some (lit "export {}")
      /\ removals (new_events demo_world tsc_fails.1) (lit "/w/t.js") = 0%nat).
Proof. vm_compute. repeat split; reflexivity. Qed.

(** The same on every literate file: whenever the module made from a
    [.md] source rejects at once, the process is ended, the artifact
    holds the extraction and no deletion has happened. *)
Lemma md_artifact_is_left e n fp o w data err :
  extname fp = lit ".md" ->
  files w !! fp = Some data ->
  write_error e (artifact fp) (files w) = None ->
  loader e (artifact fp) (<[artifact fp := transformMarkdown data]> (files w))
    (resolve (cwd e) o) (dirname (resolve (cwd e) o)) = Some err ->
  at_once e err = true ->
  let r := importPath e (S (S n)) fp o w in
  r.2 = Unhandled err
  /\ artifacts (new_events w r.1) = [artifact fp]
  /\ files r.1 !! artifact fp = Some (transformMarkdown data)
  /\ removals (new_events w r.1) (artifact fp) = 0%nat.
Proof.
  intros H Hf Hw Hl Hat. cbv zeta.
  rewrite (importPath_md_run e n fp o w H), Hf.
  unfold write_and_load, load_and_remove, unawaited, load_outcome.
  rewrite Hw, Hl, Hat. simpl. rewrite new_events_after. simpl.
  repeat split; first [apply lookup_insert_eq | count_removals].
Qed.

(** Where the cleanup does work: a consumer whose rejection comes late
    enough to be awaited. The artifact of [/w/README.md] has been
    written, deleted once, and is gone. *)
Example cleanup_when_the_consumer_fails_late :
  let r := importPath refusing_env 3 (lit "/w/README.md") (lit "/w/README.md") demo_world in
  r.2 = Throw (LoadError (lit "boom"))
  /\ artifacts (new_events demo_world r.1) = [lit "/w/README.md.mjs"]
  /\ files r.1 !! lit "/w/README.md.mjs" = None
  /\ removals (new_events demo_world r.1) (lit "/w/README.md.mjs") = 1%nat.
Proof. vm_compute. repeat split; reflexivity. Qed.

(** The [.ts] chain at work: the emitted [t.js] is renamed to [t.mjs],
    loaded and removed; neither is left. When the compiler fails without
    output the process exits with status 1 before anything is
    materialized. *)
Example ts_chain_leaves_nothing :
  let r := importPath demo_env 3 (lit "/w/t.ts") (lit "/w/t.ts") demo_world in
  let r' := importPath failing_tsc_env 3 (lit "/w/t.ts") (lit "/w/t.ts") demo_world in
  r.2 = Value tt
  /\ artifacts (new_events demo_world r.1) = [lit "/w/t.mjs"]
  /\ files r.1 !! lit "/w/t.mjs" = None
  /\ files r.1 !! lit "/w/t.js" = None
  /\ r'.2 = Exit 1
  /\ new_events demo_world r'.1 = [].
Proof. vm_compute. repeat split; reflexivity. Qed.

(** The directory [scriptFromStdin] makes with [mkdtemp] is not the
    script and is never removed. *)
Example stdin_directory_stays :
  let r := scriptFromStdin demo_env 2 demo_world in
  r.2 = Value true
  /\ dirs r.1 = [lit "/tmp/k3j2.mjsAbCdEf"]
  /\ artifacts (new_events demo_world r.1) = [lit "/tmp/k3j2.mjs"]
  /\ files r.1 !! lit "/tmp/k3j2.mjs" = None.
Proof. vm_compute. repeat split; reflexivity. Qed.

(** ** The origin is not an artifact *)

Lemma last_nonempty_split (l : list jsstring) b :
  last (filter (fun s => s <> []) l) = Some b ->
  exists pre k, l = pre ++ b :: replicate k [].
Proof.
  induction l as [|x l IH] using rev_ind; [done|].
  rewrite filter_app. destruct (decide (x = [])) as [->|Hx].
  - rewrite (filter_cons_False _ [] []) by (by intros ?).
    rewrite filter_nil, app_nil_r. intros (pre & k & ->)%IH.
    exists pre, (S k). rewrite <- app_assoc. simpl.
    by rewrite <- replicate_S_end.
  - rewrite (filter_cons_True _ x []) by done. rewrite filter_nil, last_snoc.
    intros [= ->]. by exists l, 0%nat.
Qed.

Lemma split_basename p :
  basename p <> [] ->
  exists pre k, split SLASH p = pre ++ basename p :: replicate k [].
Proof.
  unfold basename.
  destruct (last (filter (fun s => s <> []) (split SLASH p))) as [b|] eqn:Hl;
    [|done].
  intros _. by apply last_nonempty_split.
Qed.

Lemma fold_norm_step_empty allow k stack :
  fold_left (norm_step allow) (replicate k []) stack = stack.
Proof. induction k as [|k IH]; [done|]. simpl. exact IH. Qed.

(** [normalizeString] keeps a plain segment last when only empty segments
    follow it. *)
Lemma normalizeString_last_seg p allow pre b k :
  plain_seg b -> split SLASH p = pre ++ b :: replicate k [] ->
  exists Y, normalizeString p allow = Y ++ b
            /\ (Y = [] \/ exists Y', Y = Y' ++ [SLASH]).
Proof.
  intros Hb Hs. unfold normalizeString.
  rewrite Hs, fold_left_app. simpl.
  rewrite norm_step_plain by done.
  rewrite fold_norm_step_empty, reverse_cons.
  destruct (reverse (fold_left (norm_step allow) pre [])) as [|i st].
  - exists []. split; [done|by left].
  - rewrite join_snoc by done. exists (join [SLASH] (i :: st) ++ [SLASH]).
    split; [by rewrite <- app_assoc|]. right. eauto.
Qed.

(** [resolve] keeps a plain last segment. *)
Lemma basename_resolve cwd p :
  plain_seg (basename p) -> basename (resolve cwd p) = basename p.
Proof.
  intros Hb. destruct (split_basename p) as (pre & k & Hs); [apply Hb|].
  destruct p as [|c p].
  { by destruct Hb as [Hb _]. }
  unfold resolve.
  set (rel := (c :: p) ++ [SLASH]).
  set (full := if isAbsolute rel then rel
               else match cwd with [] => rel | _ => cwd ++ SLASH :: rel end).
  assert (exists pre', split SLASH full
                       = pre' ++ basename (c :: p) :: replicate (S k) []) as [pre' Hf].
  { assert (split SLASH rel = pre ++ basename (c :: p) :: replicate (S k) []) as Hr.
    { unfold rel. rewrite split_app_sep, Hs. simpl split.
      rewrite <- app_assoc. simpl. by rewrite <- replicate_S_end. }
    unfold full. destruct (isAbsolute rel); [eauto|].
    destruct cwd as [|d cwd]; [eauto|].
    rewrite split_app_sep, Hr, app_assoc. eauto. }
  destruct (normalizeString_last_seg full (negb (isAbsolute full)) _ _ _ Hb Hf)
    as (Y & -> & HY).
  destruct Hb as (Hne & _ & _ & Hsl).
  destruct (isAbsolute full).
  - rewrite app_comm_cons. apply basename_app_seg; [done|done|]. right.
    destruct HY as [->|[Y' ->]]; [by exists []|by exists (SLASH :: Y')].
  - destruct (Y ++ basename (c :: p)) as [|y0 yb] eqn:E.
    + by apply app_eq_nil in E as [_ ?].
    + rewrite <- E. by apply basename_app_seg.
Qed.

Lemma plain_with_ext b : ext_of b <> [] -> SLASH ∉ b -> plain_seg b.
Proof.
  intros He Hs. repeat split; try done; intros ->; by apply He.
Qed.

(** In the [.md] and [.ts] chains the resolved origin is not the path that
    is materialized and loaded. *)
Lemma origin_is_not_the_artifact cwd fp :
  (extname fp = lit ".md" -> resolve cwd fp <> artifact fp)
  /\ (extname fp = lit ".ts" -> resolve cwd fp <> ts_outFile fp).
Proof.
  split; intros Hext Heq.
  - apply (f_equal extname) in Heq. rewrite extname_artifact in Heq.
    rewrite bool_decide_eq_false_2 in Heq
      by (apply ext_nonempty_basename; by rewrite Hext).
    unfold extname in Heq. rewrite basename_resolve in Heq.
    + fold (extname fp) in Heq. rewrite Hext in Heq. discriminate.
    + apply plain_with_ext; [|apply basename_no_slash].
      fold (extname fp). by rewrite Hext.
  - apply (f_equal extname) in Heq. rewrite (extname_ts_outFile fp Hext) in Heq.
    unfold extname in Heq. rewrite basename_resolve in Heq.
    + fold (extname fp) in Heq. rewrite Hext in Heq. discriminate.
    + apply plain_with_ext; [|apply basename_no_slash].
      fold (extname fp). by rewrite Hext.
Qed.

(** C8. Whenever the loader is entered, [__filename] and [__dirname] are
    the resolved origin and its directory: the path [importPath] was
    first called with (here with its default [origin]), or the synthetic
    [stdin.mjs] of the working directory; never the artifact that is
    loaded. *)
Theorem globals_are_bound_to_the_origin e n w :
  (forall fp,
     bound_to (resolve (cwd e) fp)
       (new_events w (importPath e (S (S (S n))) fp fp w).1))
  /\ bound_to (resolve (cwd e) (stdin_origin e))
       (new_events w (scriptFromStdin e (S (S n)) w).1).
Proof.
  split.
  - intros fp. destruct (importPath_shapes e n fp fp w) as (_ & H & _).
    by destruct (str_eqb (extname fp) (lit ".ts")).
  - by destruct (scriptFromStdin_shapes e n w) as (_ & _ & H).
Qed.

(** The five chains at work: in each the loader is entered once, with the
    globals of the origin. *)
Example globals_in_every_chain :
  let run fp := new_events demo_world (importPath demo_env 3 fp fp demo_world).1 in
  loads (run (lit "/w/script"))
    = [(lit "/w/script.mjs", lit "/w/script", lit "/w")]
  /\ loads (run (lit "/w/README.md"))
     = [(lit "/w/README.md.mjs", lit "/w/README.md", lit "/w")]
  /\ loads (run (lit "/w/t.ts")) = [(lit "/w/t.mjs", lit "/w/t.ts", lit "/w")]
  /\ loads (run (lit "/w/a.js")) = [(lit "/w/a.js", lit "/w/a.js", lit "/w")]
  /\ loads (new_events demo_world (scriptFromStdin demo_env 2 demo_world).1)
     = [(lit "/tmp/k3j2.mjs", lit "/w/stdin.mjs", lit "/w")].
Proof. vm_compute. repeat split; reflexivity. Qed.

Lemma importPath_raw_missing e n fp o w :
  extname fp = [] -> files w !! fp = None ->
  importPath e (S n) fp o w = (w, Throw (read_error e fp)).
Proof.
  intros H Hf. by rewrite (importPath_raw e n fp o w H), Hf.
Qed.

(** Termination whatever the files are: three calls are always enough. *)
Lemma importPath_total e n fp o w :
  (importPath e (S (S (S n))) fp o w).2 <> OutOfFuel.
Proof. by destruct (importPath_shapes e n fp o w) as (H & _). Qed.

(** C9. The resolution terminates, and in one transforming step at most:
    the path a step materializes has the extension [.mjs], which is the
    terminal case, so fuel for two calls of [importPath] is never used
    up. Files are taken to have names ([fs_wf]). *)
Theorem resolution_takes_one_step e n fp o w :
  fs_wf w ->
  (importPath e (S (S n)) fp o w).2 <> OutOfFuel
  /\ (transforming_steps (new_events w (importPath e (S (S n)) fp o w).1) <= 1)%nat
  /\ Forall (fun p => extname p = lit ".mjs" /\ in_dispatch (extname p) = false)
       (artifacts (new_events w (importPath e (S (S n)) fp o w).1)).
Proof.
  intros Hwf.
  assert (forall q, basename q <> [] ->
            extname (artifact q) = lit ".mjs"
            /\ in_dispatch (extname (artifact q)) = false) as Hart.
  { intros q Hq. by rewrite extname_artifact, bool_decide_eq_false_2. }
  destruct (dispatch_cases (extname fp)) as [H|[H|[H|H]]].
  - destruct (files w !! fp) as [data|] eqn:Hf.
    + assert (basename fp <> []) as Hb by exact (Hwf fp data Hf).
      destruct (Hart fp Hb) as [Ha1 Ha2].
      rewrite (importPath_raw_run_named e n fp o w H Hb), Hf.
      run_leaves; (split; [done|]);
        (split; [unfold transforming_steps; simpl; lia|]);
        by repeat constructor.
    + rewrite (importPath_raw_missing e _ fp o w H Hf). simpl.
      rewrite new_events_same. repeat split; [done| |constructor].
      unfold transforming_steps; simpl; lia.
  - assert (basename fp <> []) as Hb
      by (apply ext_nonempty_basename; by rewrite H).
    destruct (Hart fp Hb) as [Ha1 Ha2].
    rewrite (importPath_md_run e n fp o w H).
    destruct (files w !! fp) as [data|]; run_leaves; (split; [done|]);
      (split; [unfold transforming_steps; simpl; lia|]);
      by repeat constructor.
  - pose proof (extname_ts_outFile fp H) as Hout.
    rewrite (importPath_ts_run e n fp o w H).
    run_leaves; (split; [done|]);
      (split; [unfold transforming_steps; simpl; lia|]);
      repeat constructor; by rewrite ?Hout.
  - rewrite (importPath_terminal e _ fp o w H), load_module_run.
    run_leaves; (split; [done|]);
      (split; [unfold transforming_steps; simpl; lia|constructor]).
Qed.

Lemma resolution_takes_one_step_witness :
  fs_wf demo_world
  /\ (importPath demo_env 2 (lit "/w/README.md") (lit "/w/README.md") demo_world).2
     <> OutOfFuel
  /\ (transforming_steps
        (new_events demo_world
           (importPath demo_env 2 (lit "/w/README.md") (lit "/w/README.md")
              demo_world).1) <= 1)%nat
  /\ Forall (fun p => extname p = lit ".mjs" /\ in_dispatch (extname p) = false)
       (artifacts
          (new_events demo_world
             (importPath demo_env 2 (lit "/w/README.md") (lit "/w/README.md")
                demo_world).1)).
Proof.
  assert (fs_wf demo_world) as Hwf by (unfold fs_wf; by_evaluation).
  split; [exact Hwf|].
  exact (resolution_takes_one_step demo_env 0 (lit "/w/README.md")
           (lit "/w/README.md") demo_world Hwf).
Defined.

(** Why files must have names: were [/] a regular file, its artifact
    [/.mjs] would have no extension and a second step would follow. *)
Example nameless_file_takes_two_steps :
  let w := World (<[lit "/" := lit "1"]> ∅) [] None [] in
  let r := importPath demo_env 3 (lit "/") (lit "/") w in
  artifacts (new_events w r.1) = [lit "/.mjs"; lit "/.mjs.mjs"]
  /\ extname (lit "/.mjs") = []
  /\ r.2 = Value tt.
Proof. vm_compute. repeat split; reflexivity. Qed.

(** * Further properties of [transformMarkdown] *)

(** The lines of the result are the lines the loop pushed. *)
Lemma split_transformMarkdown source :
  split LF (transformMarkdown source) = output (run (split LF source)).
Proof.
  unfold transformMarkdown, run. apply split_join.
  - intros Hnil.
    pose proof (fold_step_length (split LF source) init) as Hlen.
    rewrite Hnil in Hlen. simpl in Hlen.
    pose proof (split_nonempty LF source).
    destruct (split LF source); [done|discriminate].
  - apply fold_step_no_lf; [apply split_no_sep|constructor].
Qed.

Lemma fence_close_is_fence l : re_fence_close l = true -> re_fence_any l = true.
Proof.
  unfold re_fence_close, str_eqb. intros H%bool_decide_eq_true. by subst.
Qed.

Lemma step_emitted c l :
  exists x, output (step c l) = output c ++ [x] /\ emitted_from l x.
Proof.
  unfold step, push, emitted_from.
  destruct (cur_state c); simpl.
  - destruct (re_indent4 l && prevLineIsEmpty c); simpl; [eauto|].
    destruct (re_fence_js l) eqn:Hjs; simpl;
      [apply fence_js_is_fence in Hjs; eauto 8|].
    destruct (re_fence_sh l) eqn:Hsh; simpl;
      [apply fence_sh_is_fence in Hsh; eauto 8|].
    destruct (re_fence_any l) eqn:Hany; simpl; eauto 8.
  - destruct (re_indent l); simpl; [eauto|].
    destruct (str_eqb l []) eqn:E; simpl; [|eauto].
    apply bool_decide_eq_true in E. subst. eauto.
  - destruct (re_fence_close l) eqn:Hcl; simpl;
      [apply fence_close_is_fence in Hcl|]; eauto 8.
  - destruct (re_fence_close l) eqn:Hcl; simpl;
      [apply fence_close_is_fence in Hcl|]; eauto 8.
  - destruct (re_fence_close l) eqn:Hcl; simpl;
      [apply fence_close_is_fence in Hcl|]; eauto 8.
Qed.

Lemma fold_step_emitted lines c :
  exists outs, output (fold_left step lines c) = output c ++ outs
               /\ Forall2 emitted_from lines outs.
Proof.
  revert c. induction lines as [|l lines IH]; intros c; simpl.
  - exists []. by rewrite app_nil_r.
  - destruct (IH (step c l)) as (outs & -> & Hall).
    destruct (step_emitted c l) as (x & -> & Hx).
    exists (x :: outs). rewrite <- app_assoc. split; [done|by constructor].
Qed.

(** X1. Line by line, the output of [transformMarkdown] is its input: each
    output line is the input line at the same position, unchanged or
    behind the comment prefix; only a fence marker line is ever replaced,
    by the empty line, by [await $`] or by a backtick. *)
Theorem transformMarkdown_line_by_line (source : jsstring) :
  Forall2 emitted_from (split LF source) (split LF (transformMarkdown source)).
Proof.
  rewrite split_transformMarkdown. unfold run.
  destruct (fold_step_emitted (split LF source) init) as (outs & -> & H).
  exact H.
Qed.

Lemma fold_step_prose lines c :
  cur_state c = root ->
  Forall (fun l => re_indent4 l = false /\ re_fence_any l = false) lines ->
  output (fold_left step lines c) = output c ++ map comment lines
  /\ cur_state (fold_left step lines c) = root.
Proof.
  revert c. induction lines as [|l lines IH]; intros c Hc Hall; simpl.
  - by rewrite app_nil_r.
  - inversion Hall as [|? ? [Hi Hf] Hrest]; subst.
    assert (step c l = Cursor root (str_eqb l []) (output c ++ [comment l])) as Hstep.
    { unfold step. rewrite Hc, Hi, Hf. simpl.
      destruct (re_fence_js l) eqn:Hjs;
        [apply fence_js_is_fence in Hjs; congruence|].
      destruct (re_fence_sh l) eqn:Hsh;
        [apply fence_sh_is_fence in Hsh; congruence|]. done. }
    rewrite Hstep.
    destruct (IH (Cursor root (str_eqb l []) (output c ++ [comment l]))
                eq_refl Hrest) as [-> ->].
    simpl. by rewrite <- app_assoc.
Qed.

(** X2. A document without code is commented out as a whole: when no line
    starts with four spaces or a tab and no line is a fence marker, the
    result is every line behind the comment prefix. *)
Theorem transformMarkdown_prose_only (source : jsstring) :
  Forall (fun l => re_indent4 l = false /\ re_fence_any l = false)
    (split LF source) ->
  transformMarkdown source = join [LF] (map comment (split LF source)).
Proof.
  intros H. unfold transformMarkdown, run.
  by destruct (fold_step_prose (split LF source) init eq_refl H) as [-> _].
Qed.

Lemma transformMarkdown_prose_only_witness :
  Forall (fun l => re_indent4 l = false /\ re_fence_any l = false)
    (split LF (lit "a title" ++ LF :: LF :: lit "some text"))
  /\ transformMarkdown (lit "a title" ++ LF :: LF :: lit "some text")
     = join [LF] (map comment (split LF (lit "a title" ++ LF :: LF :: lit "some text"))).
Proof.
  assert (Forall (fun l => re_indent4 l = false /\ re_fence_any l = false)
            (split LF (lit "a title" ++ LF :: LF :: lit "some text"))) as H
    by (vm_compute; repeat constructor).
  split; [exact H|].
  exact (transformMarkdown_prose_only _ H).
Defined.

(** ** Fenced blocks, one by one *)

Lemma starts_with_app p s : starts_with p s = true -> exists r, s = p ++ r.
Proof.
  revert s. induction p as [|a p IH]; intros s; simpl; [by exists s|].
  destruct s as [|b s]; [done|].
  intros [Hab Hps]%andb_true_iff. apply N.eqb_eq in Hab as ->.
  destruct (IH s Hps) as [r ->]. by exists r.
Qed.

Lemma fence_any_no_lf l : re_fence_any l = true -> LF ∉ l.
Proof.
  unfold re_fence_any. intros [Hs Hr]%andb_true_iff.
  destruct (starts_with_app _ _ Hs) as [r ->].
  change (drop 3 (lit "```" ++ r)) with r in Hr.
  rewrite elem_of_app. intros [Hin|Hin].
  - assert (LF ∉ lit "```") by by_evaluation. done.
  - rewrite forallb_forall in Hr. apply list_elem_of_In in Hin.
    by specialize (Hr LF Hin).
Qed.

Lemma fence_not_indent4 l : re_fence_any l = true -> re_indent4 l = false.
Proof.
  intros H. destruct (re_indent4 l) eqn:E; [|done].
  apply indent4_not_fence in E. congruence.
Qed.

(** Inside a script or shell fence every line but the bare fence is kept
    as it is. *)
Lemma fold_step_code st body c :
  st = js \/ st = bash -> cur_state c = st ->
  Forall (fun l => l <> lit "```") body ->
  fold_left step body c = Cursor st (prevLineIsEmpty c) (output c ++ body).
Proof.
  intros Hst. revert c. induction body as [|l body IH]; intros c Hc Hall; simpl.
  - rewrite app_nil_r. destruct c. simpl in Hc. by subst.
  - apply Forall_cons in Hall as [Hl Hrest].
    assert (re_fence_close l = false) as Hcl
      by (by apply bool_decide_eq_false_2).
    assert (step c l = push l st c) as ->.
    { unfold step. rewrite Hc. by destruct Hst as [->| ->]; rewrite Hcl. }
    rewrite IH; [|done|done]. unfold push. simpl. by rewrite <- app_assoc.
Qed.

(** Inside any other fence every line but the bare fence is commented. *)
Lemma fold_step_other body c :
  cur_state c = other ->
  Forall (fun l => l <> lit "```") body ->
  fold_left step body c
  = Cursor other (prevLineIsEmpty c) (output c ++ map comment body).
Proof.
  revert c. induction body as [|l body IH]; intros c Hc Hall; simpl.
  - rewrite app_nil_r. destruct c. simpl in Hc. by subst.
  - apply Forall_cons in Hall as [Hl Hrest].
    assert (re_fence_close l = false) as Hcl
      by (by apply bool_decide_eq_false_2).
    assert (step c l = push (comment l) other c) as ->.
    { unfold step. by rewrite Hc, Hcl. }
    rewrite IH; [|done|done]. unfold push. simpl. by rewrite <- app_assoc.
Qed.

(** The lines of a document written as an opening line, a body and a
    bare closing fence. *)
Lemma split_fence_document opener body :
  LF ∉ opener -> Forall (fun l => LF ∉ l) body ->
  split LF (join [LF] (opener :: body ++ [lit "```"]))
  = opener :: body ++ [lit "```"].
Proof.
  intros Ho Hb. apply split_join; [done|].
  constructor; [done|]. apply Forall_app. split; [done|].
  constructor; [by_evaluation|constructor].
Qed.

(** X3. A [js] or [javascript] fence is live code: the two fence lines
    become empty lines and every line between them is kept as it is,
    whatever it holds (other fence markers included), as long as it is not
    the bare closing fence. *)
Theorem transformMarkdown_js_fence (opener : jsstring) (body : list jsstring) :
  re_fence_js opener = true ->
  Forall (fun l => LF ∉ l) body ->
  Forall (fun l => l <> lit "```") body ->
  transformMarkdown (join [LF] (opener :: body ++ [lit "```"]))
  = join [LF] ([] :: body ++ [[]]).
Proof.
  intros Ho Hlf Hb. pose proof (fence_js_is_fence _ Ho) as Hany.
  unfold transformMarkdown, run.
  rewrite split_fence_document by (by auto using fence_any_no_lf).
  simpl fold_left. rewrite fold_left_app.
  assert (step init opener = push [] js init) as ->.
  { unfold step. simpl. by rewrite (fence_not_indent4 _ Hany), Ho. }
  rewrite (fold_step_code js body (push [] js init) (or_introl eq_refl) eq_refl Hb).
  reflexivity.
Qed.

Lemma transformMarkdown_js_fence_witness :
  transformMarkdown
    (join [LF] (lit "```js" :: [lit "let x = 1"; lit "```sh"] ++ [lit "```"]))
  = join [LF] ([] :: [lit "let x = 1"; lit "```sh"] ++ [[]]).
Proof.
  apply (transformMarkdown_js_fence (lit "```js") [lit "let x = 1"; lit "```sh"]).
  - reflexivity.
  - repeat constructor; by_evaluation.
  - repeat constructor; by_evaluation.
Defined.

(** X4. A [sh] or [bash] fence becomes one command literal: the opening
    line turns into [await $`], the closing fence into a backtick, and
    every line between them is kept as it is: nothing in the body is
    escaped. *)
Theorem transformMarkdown_shell_fence (opener : jsstring) (body : list jsstring) :
  re_fence_sh opener = true ->
  Forall (fun l => LF ∉ l) body ->
  Forall (fun l => l <> lit "```") body ->
  transformMarkdown (join [LF] (opener :: body ++ [lit "```"]))
  = join [LF] (lit "await $`" :: body ++ [lit "`"]).
Proof.
  intros Ho Hlf Hb. pose proof (fence_sh_is_fence _ Ho) as Hany.
  unfold transformMarkdown, run.
  rewrite split_fence_document by (by auto using fence_any_no_lf).
  simpl fold_left. rewrite fold_left_app.
  assert (step init opener = push (lit "await $`") bash init) as ->.
  { unfold step. simpl. rewrite (fence_not_indent4 _ Hany), Ho. simpl.
    destruct (re_fence_js opener) eqn:Hjs; [|done].
    exfalso. revert Ho Hjs. unfold re_fence_sh, re_fence_js, str_eqb.
    intros [H|H]%orb_true_iff; apply bool_decide_eq_true in H; subst;
      discriminate. }
  rewrite (fold_step_code bash body (push (lit "await $`") bash init)
             (or_intror eq_refl) eq_refl Hb).
  reflexivity.
Qed.

Lemma transformMarkdown_shell_fence_witness :
  transformMarkdown
    (join [LF] (lit "```bash" :: [lit "echo `date`"; lit "ls"] ++ [lit "```"]))
  = join [LF] (lit "await $`" :: [lit "echo `date`"; lit "ls"] ++ [lit "`"]).
Proof.
  apply (transformMarkdown_shell_fence (lit "```bash") [lit "echo `date`"; lit "ls"]).
  - reflexivity.
  - repeat constructor; by_evaluation.
  - repeat constructor; by_evaluation.
Defined.

(** X5. A fence with any other tag, or with none, is not code: its two
    fence lines become empty lines and every line between them is
    commented. *)
Theorem transformMarkdown_other_fence (opener : jsstring) (body : list jsstring) :
  re_fence_any opener = true ->
  re_fence_js opener = false ->
  re_fence_sh opener = false ->
  Forall (fun l => LF ∉ l) body ->
  Forall (fun l => l <> lit "```") body ->
  transformMarkdown (join [LF] (opener :: body ++ [lit "```"]))
  = join [LF] ([] :: map comment body ++ [[]]).
Proof.
  intros Hany Hjs Hsh Hlf Hb.
  unfold transformMarkdown, run.
  rewrite split_fence_document by (by auto using fence_any_no_lf).
  simpl fold_left. rewrite fold_left_app.
  assert (step init opener = push [] other init) as ->.
  { unfold step. simpl. by rewrite (fence_not_indent4 _ Hany), Hjs, Hsh, Hany. }
  rewrite (fold_step_other body (push [] other init) eq_refl Hb). reflexivity.
Qed.

Lemma transformMarkdown_other_fence_witness :
  transformMarkdown
    (join [LF] (lit "```python" :: [lit "print(1)"] ++ [lit "```"]))
  = join [LF] ([] :: map comment [lit "print(1)"] ++ [[]]).
Proof.
  apply (transformMarkdown_other_fence (lit "```python") [lit "print(1)"]).
  - reflexivity.
  - reflexivity.
  - reflexivity.
  - repeat constructor; by_evaluation.
  - repeat constructor; by_evaluation.
Defined.

(** ** Documents in sequence *)

Lemma join_app sep (l1 l2 : list jsstring) :
  l1 <> [] -> l2 <> [] ->
  join [sep] (l1 ++ l2) = join [sep] l1 ++ sep :: join [sep] l2.
Proof.
  intros H1 H2. induction l1 as [|a l1 IH]; [done|].
  destruct l1 as [|b l1].
  - simpl. by destruct l2.
  - change (join [sep] ((a :: b :: l1) ++ l2))
      with (a ++ [sep] ++ join [sep] ((b :: l1) ++ l2)).
    rewrite IH by done.
    change (join [sep] (a :: b :: l1)) with (a ++ [sep] ++ join [sep] (b :: l1)).
    by rewrite <- !app_assoc.
Qed.

(** What the loop has pushed so far does not matter to what it does
    next. *)
Lemma step_prefix s f out o l :
  step (Cursor s f (out ++ o)) l
  = Cursor (cur_state (step (Cursor s f o) l))
      (prevLineIsEmpty (step (Cursor s f o) l))
      (out ++ output (step (Cursor s f o) l)).
Proof.
  unfold step, push. simpl.
  destruct s;
    repeat match goal with |- context [if ?b then _ else _] => destruct b end;
    simpl; by rewrite <- app_assoc.
Qed.

Lemma fold_step_prefix lines s f out o :
  fold_left step lines (Cursor s f (out ++ o))
  = Cursor (cur_state (fold_left step lines (Cursor s f o)))
      (prevLineIsEmpty (fold_left step lines (Cursor s f o)))
      (out ++ output (fold_left step lines (Cursor s f o))).
Proof.
  revert s f o. induction lines as [|l lines IH]; intros s f o; simpl; [done|].
  rewrite step_prefix. rewrite IH. by destruct (step (Cursor s f o) l).
Qed.

(** X6. Documents compose: when the extractor finishes a first document
    as it started (prose state, blank-line flag set), the result for the
    two documents put one after the other is the two results put one
    after the other. *)
Theorem transformMarkdown_app (s1 s2 : jsstring) :
  final_state s1 = root ->
  prevLineIsEmpty (run (split LF s1)) = true ->
  transformMarkdown (s1 ++ LF :: s2)
  = transformMarkdown s1 ++ LF :: transformMarkdown s2.
Proof.
  unfold final_state, transformMarkdown, run. intros Hs Hf.
  rewrite split_app_sep, fold_left_app.
  destruct (fold_left step (split LF s1) init) as [st f out] eqn:E1.
  simpl in Hs, Hf. subst st f.
  rewrite <- (app_nil_r out) at 1. rewrite fold_step_prefix. simpl output.
  fold init. apply join_app.
  - intros ->. pose proof (fold_step_length (split LF s1) init) as Hlen.
    rewrite E1 in Hlen. simpl in Hlen.
    pose proof (split_nonempty LF s1). destruct (split LF s1); [done|discriminate].
  - intros Hnil. pose proof (fold_step_length (split LF s2) init) as Hlen.
    rewrite Hnil in Hlen. simpl in Hlen.
    pose proof (split_nonempty LF s2). destruct (split LF s2); [done|discriminate].
Qed.

Lemma transformMarkdown_app_witness :
  transformMarkdown
    ((lit "```js" ++ LF :: lit "let x" ++ LF :: lit "```") ++ LF :: lit "    y")
  = transformMarkdown (lit "```js" ++ LF :: lit "let x" ++ LF :: lit "```")
      ++ LF :: transformMarkdown (lit "    y").
Proof.
  apply (transformMarkdown_app
           (lit "```js" ++ LF :: lit "let x" ++ LF :: lit "```") (lit "    y"));
    reflexivity.
Defined.

(** ** Carriage returns *)

Lemma fence_any_cr l : re_fence_any (l ++ [CR]) = false.
Proof.
  destruct (re_fence_any (l ++ [CR])) eqn:E; [|done]. exfalso.
  unfold re_fence_any in E. apply andb_true_iff in E as [Hs Hr].
  destruct (starts_with_app _ _ Hs) as [r Hlr]. rewrite Hlr in Hr.
  change (drop 3 (lit "```" ++ r)) with r in Hr.
  destruct r as [|x r _] using rev_ind.
  - rewrite app_nil_r in Hlr. apply (f_equal last) in Hlr.
    rewrite last_snoc in Hlr. discriminate.
  - rewrite app_assoc in Hlr. apply app_inj_tail in Hlr as [_ <-].
    rewrite forallb_app in Hr. apply andb_true_iff in Hr as [_ Hr]. discriminate.
Qed.

Lemma step_no_fence c l :
  re_fence_any l = false -> fenced (cur_state c) = false ->
  fenced (cur_state (step c l)) = false
  /\ exists x, output (step c l) = output c ++ [x] /\ (x = l \/ x = comment l).
Proof.
  intros Hany Hc. unfold step, push.
  destruct (cur_state c); try discriminate; simpl.
  - destruct (re_indent4 l && prevLineIsEmpty c); simpl; [eauto|].
    destruct (re_fence_js l) eqn:Hjs;
      [apply fence_js_is_fence in Hjs; congruence|].
    destruct (re_fence_sh l) eqn:Hsh;
      [apply fence_sh_is_fence in Hsh; congruence|].
    rewrite Hany. simpl. eauto.
  - destruct (re_indent l); simpl; [eauto|].
    destruct (str_eqb l []) eqn:E; simpl; [|eauto].
    apply bool_decide_eq_true in E. subst. eauto.
Qed.

Lemma fold_step_no_fence lines c :
  Forall (fun l => re_fence_any l = false) lines ->
  fenced (cur_state c) = false ->
  fenced (cur_state (fold_left step lines c)) = false
  /\ exists outs, output (fold_left step lines c) = output c ++ outs
                  /\ Forall2 (fun l x => x = l \/ x = comment l) lines outs.
Proof.
  revert c. induction lines as [|l lines IH]; intros c Hall Hc; simpl.
  - split; [done|]. exists []. by rewrite app_nil_r.
  - apply Forall_cons in Hall as [Hl Hrest].
    destruct (step_no_fence c l Hl Hc) as (Hc' & x & Hx & Hform).
    destruct (IH (step c l) Hrest Hc') as (Hend & outs & -> & Hall).
    split; [done|]. exists (x :: outs). rewrite Hx, <- app_assoc.
    split; [done|by constructor].
Qed.

(** X7. With carriage returns before the line feeds no fence is ever
    recognised: when every line of the document is empty or ends with a
    carriage return, the extractor never enters a fenced state, and each
    line comes out unchanged or commented; a line such as [```js] followed
    by a carriage return is commented. *)
Theorem transformMarkdown_crlf (source : jsstring) :
  Forall (fun l => l = [] \/ exists l', l = l' ++ [CR]) (split LF source) ->
  fenced (final_state source) = false
  /\ Forall2 (fun l x => x = l \/ x = comment l)
       (split LF source) (split LF (transformMarkdown source)).
Proof.
  intros Hcr. rewrite split_transformMarkdown. unfold final_state, run.
  destruct (fold_step_no_fence (split LF source) init) as (Hend & outs & -> & H);
    [|done|by split].
  eapply Forall_impl; [exact Hcr|]. intros l [->|[l' ->]]; [done|].
  apply fence_any_cr.
Qed.

Lemma transformMarkdown_crlf_witness :
  fenced (final_state (lit "```js" ++ CR :: LF :: lit "x" ++ CR :: LF :: [])) = false
  /\ Forall2 (fun l x => x = l \/ x = comment l)
       (split LF (lit "```js" ++ CR :: LF :: lit "x" ++ CR :: LF :: []))
       (split LF (transformMarkdown
                    (lit "```js" ++ CR :: LF :: lit "x" ++ CR :: LF :: []))).
Proof.
  apply (transformMarkdown_crlf (lit "```js" ++ CR :: LF :: lit "x" ++ CR :: LF :: [])).
  change (split LF (lit "```js" ++ CR :: LF :: lit "x" ++ CR :: LF :: []))
    with [lit "```js" ++ [CR]; lit "x" ++ [CR]; []].
  apply Forall_cons. split; [right; by exists (lit "```js")|].
  apply Forall_cons. split; [right; by exists (lit "x")|].
  apply Forall_cons. split; [by left|constructor].
Defined.

(** ** Indented documents *)

Lemma fold_step_indented body c :
  cur_state c = tab ->
  Forall (fun l => re_indent l = true \/ l = []) body ->
  output (fold_left step body c) = output c ++ body.
Proof.
  revert c. induction body as [|l body IH]; intros c Hc Hall; simpl.
  - by rewrite app_nil_r.
  - apply Forall_cons in Hall as [Hl Hrest].
    assert (step c l = push l tab c) as ->.
    { unfold step. rewrite Hc. destruct (re_indent l) eqn:Hi; [done|].
      destruct Hl as [?| ->]; [congruence|]. reflexivity. }
    rewrite IH; [|done|done]. unfold push. simpl. by rewrite <- app_assoc.
Qed.

(** X8. A document that is one indented block is returned unchanged: when
    its first line starts with four spaces or a tab and every further
    line starts with a space or a tab, or is empty, the result is the
    document itself. *)
Theorem transformMarkdown_indented_document (source first : jsstring)
    (rest : list jsstring) :
  split LF source = first :: rest ->
  re_indent4 first = true ->
  Forall (fun l => re_indent l = true \/ l = []) rest ->
  transformMarkdown source = source.
Proof.
  intros Hs Hfirst Hrest. unfold transformMarkdown, run. rewrite Hs.
  change (fold_left step (first :: rest) init)
    with (fold_left step rest (step init first)).
  assert (step init first = push first tab init) as ->
    by (unfold step; simpl; by rewrite Hfirst).
  rewrite fold_step_indented by done.
  change (output (push first tab init) ++ rest) with (first :: rest).
  rewrite <- Hs. apply join_split.
Qed.

Lemma transformMarkdown_indented_document_witness :
  transformMarkdown (lit "    let x = 1" ++ LF :: LF :: lit " x++")
  = lit "    let x = 1" ++ LF :: LF :: lit " x++".
Proof.
  apply (transformMarkdown_indented_document
           (lit "    let x = 1" ++ LF :: LF :: lit " x++")
           (lit "    let x = 1") [[]; lit " x++"]).
  - reflexivity.
  - reflexivity.
  - repeat constructor; by (left + right).
Defined.

(** * Further properties of the resolver *)

Lemma suffix_plain z x :
  SLASH ∉ z -> SLASH ∉ x -> (3 <= length x)%nat -> plain_seg (z ++ x).
Proof.
  intros Hz Hx Hlen. repeat split.
  - intros H%(f_equal length). rewrite length_app in H. simpl in H. lia.
  - intros H%(f_equal length). rewrite length_app in H.
    change (length (lit ".")) with 1%nat in H. lia.
  - intros H%(f_equal length). rewrite length_app in H.
    change (length (lit "..")) with 2%nat in H. lia.
  - rewrite elem_of_app. by intros [H|H].
Qed.

(** The last segment of [join(d, y + x)] for a suffix [x] of three
    characters or more without a slash. *)
Lemma basename_join_suffix d y x :
  SLASH ∉ x -> (3 <= length x)%nat ->
  basename (path_join d (y ++ x)) = last_seg y ++ x.
Proof.
  intros Hx Hlen.
  destruct (split_snoc_free SLASH y x Hx) as (pre & z & Hy & Hyx).
  assert (last_seg y = z) as -> by (unfold last_seg; by rewrite Hy, last_snoc).
  assert (SLASH ∉ z) as Hz.
  { pose proof (split_no_sep SLASH y) as Hall. rewrite Hy in Hall.
    apply Forall_app in Hall as [_ Hall]. by inversion Hall. }
  pose proof (suffix_plain z x Hz Hx Hlen) as Hp.
  assert (y ++ x <> []) as Hne.
  { intros H%(f_equal length). rewrite length_app in H. simpl in H. lia. }
  assert (exists pre', split SLASH
            match d with [] => y ++ x | _ => d ++ SLASH :: y ++ x end
          = pre' ++ [z ++ x]) as [pre' Hs].
  { destruct d as [|c d]; [eauto|]. rewrite split_app_sep, Hyx, app_assoc. eauto. }
  assert (path_join d (y ++ x)
          = normalize match d with [] => y ++ x | _ => d ++ SLASH :: y ++ x end)
    as ->.
  { unfold path_join. destruct d; [done|]. by destruct (y ++ x). }
  destruct (normalize_last_seg _ pre' _ Hp Hs) as (X & -> & HX).
  destruct Hp as (? & _ & _ & ?). by apply basename_app_seg.
Qed.

Lemma ts_name fp :
  extname fp = lit ".ts" ->
  exists n, n <> [] /\ (SLASH ∉ n) /\ basename fp = n ++ lit ".ts"
            /\ name (parse fp) = n.
Proof.
  intros Hext. unfold extname in Hext.
  destruct (ext_of_split (basename fp)) as (n & Hn & Hb & Ht);
    [rewrite Hext; discriminate|].
  rewrite Hext in Hb. exists n. repeat split; try done.
  pose proof (basename_no_slash fp) as H. rewrite Hb in H.
  intros ?. apply H. apply elem_of_app. by left.
Qed.

(** X9. The names of the [.ts] chain: for a source [<name>.ts] the
    compiler's output is taken from [<name>.js] and the module is loaded
    from [<name>.mjs]: the extension is replaced, where the other chains
    append [.mjs] to the whole name. *)
Theorem ts_chain_names (fp : jsstring) :
  extname fp = lit ".ts" ->
  exists n, basename fp = n ++ lit ".ts"
            /\ basename (ts_emitted fp) = n ++ lit ".js"
            /\ basename (ts_outFile fp) = n ++ lit ".mjs"
            /\ basename (artifact fp) = n ++ lit ".ts.mjs".
Proof.
  intros Hext. destruct (ts_name fp Hext) as (n & Hn & Hs & Hb & Hname).
  exists n. unfold ts_emitted, ts_outFile. rewrite Hname.
  rewrite !basename_join_suffix by (by_evaluation || (simpl; lia)).
  rewrite (last_seg_free n Hs). repeat split; [done|].
  unfold artifact.
  rewrite basename_join_suffix by (by_evaluation || (simpl; lia)).
  rewrite last_seg_free by apply basename_no_slash.
  rewrite Hb. by rewrite <- app_assoc.
Qed.

Lemma ts_chain_names_witness :
  exists n, basename (lit "/w/lib/t.ts") = n ++ lit ".ts"
            /\ basename (ts_emitted (lit "/w/lib/t.ts")) = n ++ lit ".js"
            /\ basename (ts_outFile (lit "/w/lib/t.ts")) = n ++ lit ".mjs"
            /\ basename (artifact (lit "/w/lib/t.ts")) = n ++ lit ".ts.mjs".
Proof. apply (ts_chain_names (lit "/w/lib/t.ts")). reflexivity. Defined.

Lemma ts_paths_differ fp :
  extname fp = lit ".ts" -> ts_emitted fp <> fp /\ ts_outFile fp <> fp.
Proof.
  intros Hext. destruct (ts_name fp Hext) as (n & Hn & Hs & Hb & Hname).
  split; intros Heq%(f_equal basename); revert Heq;
    unfold ts_emitted, ts_outFile; rewrite Hname;
    rewrite basename_join_suffix by (by_evaluation || (simpl; lia));
    rewrite (last_seg_free n Hs), Hb; intros Heq%app_inv_head; discriminate.
Qed.

Lemma artifact_artifact_differs fp : artifact (artifact fp) <> fp.
Proof.
  intros H%(f_equal basename)%(f_equal length).
  rewrite !basename_artifact, !length_app in H.
  change (length (lit ".mjs")) with 4%nat in H. lia.
Qed.

(** ** What a resolution does to the files *)

Lemma source_not_touched e n fp o w :
  fp ∉ touched (new_events w (importPath e (S (S (S n))) fp o w).1).
Proof.
  pose proof (artifact_differs fp) as Ha.
  pose proof (artifact_artifact_differs fp) as Haa.
  destruct (dispatch_cases (extname fp)) as [H|[H|[H|H]]].
  - rewrite (importPath_raw_run e n fp o w H).
    destruct (files w !! fp) as [data|]; [case_bool_decide|];
      run_leaves; settle_elem.
  - rewrite (importPath_md_run e (S n) fp o w H).
    destruct (files w !! fp) as [data|]; run_leaves; settle_elem.
  - destruct (ts_paths_differ fp H) as [Hjs Hout].
    rewrite (importPath_ts_run e (S n) fp o w H).
    run_leaves; settle_elem.
  - rewrite (importPath_terminal e _ fp o w H), load_module_run.
    run_leaves; settle_elem.
Qed.


(** A file of the user that sits where the artifact goes is lost. *)
Example sibling_mjs_is_lost :
  let w := World (<[lit "/w/script" := lit "1"]>
                 (<[lit "/w/script.mjs" := lit "precious"]> ∅)) [] None [] in
  files (importPath demo_env 3 (lit "/w/script") (lit "/w/script") w).1
    !! lit "/w/script.mjs" = None.
Proof. vm_compute. reflexivity. Qed.

(** X11. The script that is run is never altered: whatever its extension
    and whatever happens, the path [importPath] was called with holds
    after the resolution what it held before. *)
Theorem importPath_keeps_the_source e n fp o w :
  files (importPath e (S (S (S n))) fp o w).1 !! fp = files w !! fp.
Proof. apply importPath_frame, source_not_touched. Qed.



(** X13. A source that cannot be read is reported before anything is
    done: for a path without extension or with [.md] that holds no
    regular file, [importPath] throws what [fs.readFile] raised there
    ([ENOENT] for an absent path, [EISDIR] for a directory, ...) and
    leaves the files, the globals and the log as they were; no artifact
    is written and the loader is not entered. *)
Theorem importPath_missing_source e n fp o w :
  extname fp = [] \/ extname fp = lit ".md" ->
  files w !! fp = None ->
  importPath e (S n) fp o w = (w, Throw (read_error e fp)).
Proof.
  intros [H|H] Hf.
  - by rewrite (importPath_raw e n fp o w H), Hf.
  - by rewrite (importPath_md e n fp o w H), Hf.
Qed.

Lemma importPath_missing_source_witness :
  importPath demo_env 1 (lit "/w/absent.md") (lit "/w/absent.md") demo_world
  = (demo_world, Throw (read_error demo_env (lit "/w/absent.md"))).
Proof.
  apply (importPath_missing_source demo_env 0 (lit "/w/absent.md")).
  - right. reflexivity.
  - reflexivity.
Defined.

(** A directory given as a literate source: [fs.readFile] raises
    [EISDIR], and that is what [importPath] throws. *)
Example directory_as_source :
  importPath directories_env 3 (lit "/w/docs.md") (lit "/w/docs.md") demo_world
  = (demo_world, Throw (FsError (lit "EISDIR") (lit "/w/docs.md"))).
Proof. vm_compute. reflexivity. Qed.



(** The empty random name at work. *)
Example empty_random_name :
  let e := Env (lit "/w") (lit "/tmp") [] (lit "AbCdEf") (Some [lit "1"])
             node_loader (fun _ _ => Failed None)
             ENOENT (fun _ _ => None) (fun _ => false) in
  artifacts (new_events demo_world (scriptFromStdin e 2 demo_world).1)
  = [lit "/tmp/.mjs"; lit "/tmp/.mjs.mjs"].
Proof. vm_compute. reflexivity. Qed.

(** ** Absolute globals *)

Lemma resolve_absolute cwd p :
  isAbsolute cwd = true -> isAbsolute (resolve cwd p) = true.
Proof.
  intros Hc. unfold resolve.
  set (rel := match p with [] => [] | _ => p ++ [SLASH] end).
  destruct (isAbsolute rel) eqn:Hr.
  - by rewrite Hr.
  - destruct cwd as [|c cwd]; [done|]. simpl in Hc.
    change (isAbsolute ((c :: cwd) ++ SLASH :: rel)) with (is_slash c).
    by rewrite Hc.
Qed.

Lemma dirname_absolute p : isAbsolute p = true -> isAbsolute (dirname p) = true.
Proof.
  destruct p as [|c q]; [done|]. simpl. intros Hc. rewrite Hc.
  destruct (before_last_segment q) as [pre|]; [|done].
  simpl. by destruct (bool_decide (pre = [])).
Qed.

Lemma bound_to_absolute F evs :
  isAbsolute F = true -> bound_to F evs ->
  Forall (fun l => isAbsolute l.1.2 = true /\ isAbsolute l.2 = true) (loads evs).
Proof.
  intros HF H. eapply Forall_impl; [exact H|].
  intros l [-> ->]. split; [done|by apply dirname_absolute].
Qed.

(** X15. In a process whose working directory is absolute, [__filename]
    and [__dirname] are absolute paths whenever a module is loaded,
    whether the path or origin given to [importPath] was absolute or
    not, and for standard input as well. *)
Theorem globals_are_absolute e n w :
  isAbsolute (cwd e) = true ->
  (forall fp o,
     Forall (fun l => isAbsolute l.1.2 = true /\ isAbsolute l.2 = true)
       (loads (new_events w (importPath e (S (S (S n))) fp o w).1)))
  /\ Forall (fun l => isAbsolute l.1.2 = true /\ isAbsolute l.2 = true)
       (loads (new_events w (scriptFromStdin e (S (S n)) w).1)).
Proof.
  intros Hc. split.
  - intros fp o. destruct (importPath_shapes e n fp o w) as (_ & H & _).
    eapply bound_to_absolute; [|exact H]. by apply resolve_absolute.
  - destruct (scriptFromStdin_shapes e n w) as (_ & _ & H).
    eapply bound_to_absolute; [|exact H]. by apply resolve_absolute.
Qed.

Lemma globals_are_absolute_witness :
  (forall fp o,
     Forall (fun l => isAbsolute l.1.2 = true /\ isAbsolute l.2 = true)
       (loads (new_events demo_world (importPath demo_env 3 fp o demo_world).1)))
  /\ Forall (fun l => isAbsolute l.1.2 = true /\ isAbsolute l.2 = true)
       (loads (new_events demo_world (scriptFromStdin demo_env 2 demo_world).1)).
Proof. apply (globals_are_absolute demo_env 0 demo_world). reflexivity. Defined.

(** * The top-level block *)




(** An argument after the script can still ask for the version: the two
    command lines [/w/a.js -v] and [/w/a.js] do not behave alike. *)
Example version_after_the_script :
  main demo_env (with_args demo_invocation [lit "/w/a.js"; lit "-v"]) 3 demo_world
  = (demo_world, Exit 0, [PrintVersion (lit "yzx version 1.0.0")])
  /\ (main demo_env (with_args demo_invocation [lit "/w/a.js"]) 3 demo_world).1.2
     = Value tt.
Proof. vm_compute. split; reflexivity. Qed.



(** X18. With no script to run the program prints its usage and exits
    with status 2, touching nothing: this is what happens when no
    argument names a script, or when the argument is a single dash,
    and standard input is a terminal or empty. *)
Theorem main_usage e i n w :
  version_flag i = false ->
  firstArg i = None \/ firstArg i = Some (lit "-") ->
  has_script e = false ->
  main e i n w = (w, Exit 2, [PrintUsage]).
Proof.
  intros Hv Hf Hs. unfold main, main_try. rewrite Hv.
  rewrite (scriptFromStdin_without_script e n w Hs).
  by destruct Hf as [-> | ->].
Qed.

Lemma main_usage_witness :
  main tty_env (with_args demo_invocation [lit "--quiet"; lit "-"]) 3 demo_world
  = (demo_world, Exit 2, [PrintUsage]).
Proof.
  apply (main_usage tty_env (with_args demo_invocation [lit "--quiet"; lit "-"])
           3 demo_world).
  - reflexivity.
  - right. reflexivity.
  - reflexivity.
Defined.

(** X19. The program ends itself with three statuses only: 0 after
    printing the version, 2 after printing the usage for want of a
    script, and 1, for a [ProcessOutput] that was thrown or a compiler
    that failed. *)
Theorem main_exit_statuses e i n w c :
  (main e i (S (S (S n))) w).1.2 = Exit c ->
  (c = 0 /\ version_flag i = true)
  \/ c = 1
  \/ (c = 2 /\ version_flag i = false /\ has_script e = false).
Proof.
  unfold main. destruct (version_flag i) eqn:Hv.
  { simpl. intros [= <-]. by left. }
  assert (forall c', (after_stdin (scriptFromStdin e (S (S (S n))) w)).1.2 = Exit c' ->
                     c' = 2 /\ has_script e = false) as Hstdin.
  { intros c'. destruct (scriptFromStdin_shapes e (S n) w) as (_ & Hne & _).
    destruct (has_script e) eqn:Hs.
    - revert Hne. rewrite (scriptFromStdin_script_run e (S n) w Hs). cbv zeta.
      destruct ((if bool_decide (last_seg (random36 e) = [])
                 then write_twice_and_load else write_and_load) _ _ _ _ _)
        as [w' out].
      destruct out as [[]|err|c0|err|]; simpl; intros Hne; try done.
      intros _. by specialize (Hne c0).
    - rewrite (scriptFromStdin_without_script e _ w Hs). simpl.
      by intros [= <-]. }
  assert (forall c', (main_try e i (S (S (S n))) w).1.2 = Exit c' ->
                     c' = 1 \/ (c' = 2 /\ has_script e = false)) as Htry.
  { intros c'. unfold main_try.
    destruct (firstArg i) as [a|]; [|intros Hc; right; by apply Hstdin].
    destruct (str_eqb a (lit "-")); [intros Hc; right; by apply Hstdin|].
    simpl. intros [Hc _]%importPath_exit. by left. }
  destruct (main_try e i (S (S (S n))) w) as [[w' out] pr].
  simpl in Htry. destruct out as [[]|err|c'|err|]; simpl; try done.
  - destruct (processOutput i err); simpl; [|done]. intros [= <-]. right. by left.
  - intros [= <-]. destruct (Htry c' eq_refl) as [->|[-> Hs]]; [right; by left|].
    right. right. done.
Qed.

Lemma main_exit_statuses_witness :
  (2 = 0 /\ version_flag (with_args demo_invocation [lit "-"]) = true)
  \/ 2 = 1
  \/ (2 = 2 /\ version_flag (with_args demo_invocation [lit "-"]) = false
      /\ has_script tty_env = false).
Proof.
  apply (main_exit_statuses tty_env (with_args demo_invocation [lit "-"]) 0
           demo_world 2).
  reflexivity.
Defined.


